(** * DEER fixed-point iteration: embedding of [deer/deer_iter.py] and of
    the backward-Euler inverse-linear operator of [deer/fsolve_idae.py].

    The Python code is generic in the working dtype of its arrays and in
    three caller-supplied functions.  The embedding keeps both degrees of
    freedom: scalars are an interface ([Scalar]) with an IEEE-754 instance
    per dtype (built on the Standard Library's [SpecFloat]) and an exact
    instance used for the algebraic properties; the caller's functions are
    section variables that may raise. *)

From Stdlib Require Import ZArith QArith List Bool Lia Ring ZArithRing.
From Stdlib Require Import Floats.SpecFloat.
Import ListNotations.

Set Implicit Arguments.
Local Open Scope Z_scope.

(** ** Python exceptions and the error monad *)

Inductive exn : Type :=
| ValueError
| TypeError
| IndexError.

Inductive result (A : Type) : Type :=
| Ok (a : A)
| Raise (e : exn).

Arguments Ok {A} a.
Arguments Raise {A} e.

Definition bind {A B : Type} (m : result A) (k : A -> result B) : result B :=
  match m with
  | Ok a => k a
  | Raise e => Raise e
  end.

Notation "x <- m ;; k" := (bind m (fun x => k))
  (at level 61, m at next level, right associativity).

Definition rmap {A B : Type} (f : A -> B) (m : result A) : result B :=
  x <- m ;; Ok (f x).

(** ** Working dtypes and the scalar interface *)

Inductive dtype : Type :=
| float16
| float32
| float64.

Definition dtype_eqb (a b : dtype) : bool :=
  match a, b with
  | float16, float16 | float32, float32 | float64, float64 => true
  | _, _ => false
  end.

(** What the iteration needs from [jax.numpy] on one array entry.
    [of_int z] is the entry obtained from a Python float literal whose value
    is the integer [z] ([0.0], [1e8], [1e10]); [gt_lit x c] is [x > c] for a
    Python float literal [c], which JAX converts to the dtype of [x] before
    comparing. *)
Class Scalar (T : Type) : Type := {
  dtype_of : dtype;
  of_int : Z -> T;
  add : T -> T -> T;
  sub : T -> T -> T;
  mul : T -> T -> T;
  neg : T -> T;
  absv : T -> T;
  maximum : T -> T -> T;
  minimum : T -> T -> T;
  isnan : T -> bool;
  gt_lit : T -> Q -> bool
}.

(** Scalars with exact arithmetic: a commutative ring whose comparison
    with literals agrees with the order of the rationals on the integers. *)
Class ExactScalar {T : Type} (K : Scalar T) : Prop := {
  ex_ring : ring_theory (of_int 0) (of_int 1) add mul sub neg (@eq T);
  ex_abs_0 : absv (of_int 0) = of_int 0;
  ex_max_idem : forall x, maximum x x = x;
  ex_gt_lit : forall z c, gt_lit (of_int z) c = true <-> (c < inject_Z z)%Q
}.

(** *** IEEE-754 instance *)

Module IEEE.

Definition prec (d : dtype) : Z :=
  match d with float16 => 11 | float32 => 24 | float64 => 53 end.

Definition emax (d : dtype) : Z :=
  match d with float16 => 16 | float32 => 128 | float64 => 1024 end.

Section Ops.
Variable d : dtype.

Definition fof_int (z : Z) : spec_float :=
  binary_normalize (prec d) (emax d) z 0 false.

(** Rounding of the literal [n/m]; numerator and denominator of the
    literals used here are exactly representable, so the quotient is
    correctly rounded. *)
Definition fof_lit (c : Q) : spec_float :=
  SFdiv (prec d) (emax d) (fof_int (Qnum c)) (fof_int (Zpos (Qden c))).

Definition fadd := SFadd (prec d) (emax d).
Definition fsub := SFsub (prec d) (emax d).
Definition fmul := SFmul (prec d) (emax d).
Definition fdiv := SFdiv (prec d) (emax d).

Definition fisnan (x : spec_float) : bool :=
  match x with S754_nan => true | _ => false end.

(** [jnp.maximum] and [jnp.minimum] propagate not-a-number. *)
Definition fmaximum (x y : spec_float) : spec_float :=
  if fisnan x then x else if fisnan y then y
  else if SFltb x y then y else x.

Definition fminimum (x y : spec_float) : spec_float :=
  if fisnan x then x else if fisnan y then y
  else if SFltb y x then y else x.

Definition fgt_lit (x : spec_float) (c : Q) : bool :=
  SFltb (fof_lit c) x.
End Ops.

Definition float_scalar (d : dtype) : Scalar spec_float := {|
  dtype_of := d;
  of_int := fof_int d;
  add := fadd d;
  sub := fsub d;
  mul := fmul d;
  neg := SFopp;
  absv := SFabs;
  maximum := fmaximum;
  minimum := fminimum;
  isnan := fisnan;
  gt_lit := fgt_lit d
|}.

(** The bounds of the clipping guard and the entries within them. *)
Definition clip_lo (d : dtype) : spec_float := fof_int d (- 10 ^ 8).
Definition clip_hi (d : dtype) : spec_float := fof_int d (10 ^ 8).

Definition in_clip_range (d : dtype) (r : spec_float) : Prop :=
  fisnan r = false /\ SFleb (clip_lo d) r = true
  /\ SFleb r (clip_hi d) = true.

End IEEE.

(** *** Exact instance: the integers, compared with literals in [Q] *)

Module Exact.

Definition zgt_lit (x : Z) (c : Q) : bool :=
  match Qcompare c (inject_Z x) with Lt => true | _ => false end.

Definition exact_scalar (d : dtype) : Scalar Z := {|
  dtype_of := d;
  of_int := fun z => z;
  add := Z.add;
  sub := Z.sub;
  mul := Z.mul;
  neg := Z.opp;
  absv := Z.abs;
  maximum := Z.max;
  minimum := Z.min;
  isnan := fun _ => false;
  gt_lit := zgt_lit
|}.

End Exact.

(** ** Arrays

    A sequence [(nsamples, ny)] is a list of rows, a per-sample matrix
    array [(nsamples, ny, ny)] a list of matrices.  Binary operations
    raise on operands of different shapes (broadcasting of unequal shapes
    is not part of the model). *)

Section Arrays.
Context {T : Type} {K : Scalar T}.

Definition vec : Type := list T.
Definition seq2 : Type := list vec.
Definition mat : Type := list vec.
Definition seq3 : Type := list mat.

Fixpoint zip_strict {A B C : Type} (e : exn) (f : A -> B -> result C)
    (a : list A) (b : list B) : result (list C) :=
  match a, b with
  | [], [] => Ok []
  | x :: a', y :: b' =>
      z <- f x y ;; zs <- zip_strict e f a' b' ;; Ok (z :: zs)
  | _, _ => Raise e
  end.

Definition vec_op (f : T -> T -> T) (a b : vec) : result vec :=
  zip_strict TypeError (fun x y => Ok (f x y)) a b.

Definition seq_op (f : T -> T -> T) (a b : seq2) : result seq2 :=
  zip_strict TypeError (vec_op f) a b.

Definition seq_add : seq2 -> seq2 -> result seq2 := seq_op add.
Definition seq_sub : seq2 -> seq2 -> result seq2 := seq_op sub.

Definition seq_map (f : T -> T) (a : seq2) : seq2 := map (map f) a.

(** Two arrays of one shape. *)
Definition same_shape (a b : seq2) : Prop :=
  length a = length b /\
  forall i, (i < length a)%nat -> length (nth i a []) = length (nth i b []).

(** Unary minus on a [(nsamples, ny, ny)] array. *)
Definition seq3_neg (g : seq3) : seq3 := map (map (map neg)) g.

Definition sum_list (l : list T) : T :=
  match l with
  | [] => of_int 0
  | x :: xs => fold_left add xs x
  end.

Definition dot (row v : vec) : result T :=
  ps <- zip_strict ValueError (fun g y => Ok (mul g y)) row v ;;
  Ok (sum_list ps).

Fixpoint mapM {A B : Type} (f : A -> result B) (l : list A)
    : result (list B) :=
  match l with
  | [] => Ok []
  | x :: l' => y <- f x ;; ys <- mapM f l' ;; Ok (y :: ys)
  end.

Definition matvec (m : mat) (v : vec) : result vec :=
  mapM (fun row => dot row v) m.

(** [jnp.einsum("...ij,...j->...i", gt, ytp)], for operands with the
    same number of samples.  Where NumPy would broadcast an operand of
    one sample over the samples of the other the model raises: a
    result [Ok] of the model is the result of the code, an exception of
    the model need not be one of the code. *)
Definition einsum_ij_j (gt : seq3) (ytp : seq2) : result seq2 :=
  zip_strict ValueError matvec gt ytp.

(** [jnp.einsum("...ij,...jk->...ik", a, b)] on one sample: entry
    [(i, k)] pairs row [i] of [a] with column [k] of [b].  As above,
    the two operands have the same number of samples. *)
Fixpoint columns (n : nat) (b : mat) : list vec :=
  match n with
  | O => []
  | S n' => map (fun row => hd (of_int 0) row) b
            :: columns n' (map (@tl T) b)
  end.

Definition matmul (a b : mat) : result mat :=
  let cols := columns (match b with [] => 0%nat | r :: _ => length r end) b in
  mapM (fun row => mapM (fun c => dot row c) cols) a.

Definition einsum_ij_jk (a b : seq3) : result seq3 :=
  zip_strict ValueError matmul a b.

(** [[jnp.einsum("...ij,...j->...i", gt, ytp) for gt, ytp in
    zip(gts, ytparams)]]; [zip] stops at the shorter list. *)
Fixpoint einsum_terms (gts : list seq3) (ytparams : list seq2)
    : result (list seq2) :=
  match gts, ytparams with
  | gt :: gts', ytp :: ys' =>
      t <- einsum_ij_j gt ytp ;;
      ts <- einsum_terms gts' ys' ;; Ok (t :: ts)
  | _, _ => Ok []
  end.

(** Python's builtin [sum] over a list of arrays starts from the integer
    [0]: the result is the integer itself on an empty list. *)
Fixpoint fold_seq_add (acc : seq2) (ts : list seq2) : result seq2 :=
  match ts with
  | [] => Ok acc
  | t :: ts' => acc' <- seq_add acc t ;; fold_seq_add acc' ts'
  end.

Definition py_sum (ts : list seq2) : result (option seq2) :=
  match ts with
  | [] => Ok None
  | t :: ts' =>
      r <- fold_seq_add (seq_map (add (of_int 0)) t) ts' ;; Ok (Some r)
  end.

(** [rhs += s] for [s] the value of [py_sum]. *)
Definition iadd (rhs : seq2) (s : option seq2) : result seq2 :=
  match s with
  | None => Ok (seq_map (fun x => add x (of_int 0)) rhs)
  | Some a => seq_add rhs a
  end.

(** [jnp.clip(a, min=lo, max=hi)]. *)
Definition clip_entry (lo hi x : T) : T := minimum hi (maximum lo x).
Definition jnp_clip (a : seq2) (lo hi : T) : seq2 :=
  seq_map (clip_entry lo hi) a.

(** [jnp.where(jnp.isnan(a), 0.0, a)]. *)
Definition nan_to_zero (x : T) : T := if isnan x then of_int 0 else x.
Definition where_isnan_zero (a : seq2) : seq2 := seq_map nan_to_zero a.

(** [jnp.max] of an array: raises on a zero-size array. *)
Definition jnp_max (a : seq2) : result T :=
  match concat a with
  | [] => Raise ValueError
  | x :: xs => Ok (fold_left maximum xs x)
  end.

(** [jnp.zeros((y.shape[0], y.shape[-1], y.shape[-1]))]. *)
Definition zeros_square_like (y : seq2) : seq3 :=
  map (fun row => repeat (repeat (of_int 0) (length row)) (length row)) y.

(** [jnp.zeros_like(g[..., 0])]. *)
Definition zeros_like_last0 (g : seq3) : result seq2 :=
  if forallb (forallb (fun row => negb (Nat.eqb (length row) 0))) g
  then Ok (map (map (fun _ => of_int 0)) g)
  else Raise IndexError.

End Arrays.

(** The right-hand side in the words of the specification: entry [a] of
    sample [i] is that of [f] plus the sum over the shifted arguments [k]
    of (bundle block [k] applied to shifted sequence [k]). *)
Section TaylorRhs.
Context {T : Type} {K : Scalar T}.

Definition entry (y : @seq2 T) (i a : nat) : T :=
  nth a (nth i y []) (of_int 0).

Definition jac_apply (g : @seq3 T) (u : @seq2 T) (i a : nat) : T :=
  sum_list (map (fun gy => mul (fst gy) (snd gy))
              (combine (nth a (nth i g []) []) (nth i u []))).

Definition taylor_rhs (f : @seq2 T) (gts : list (@seq3 T))
    (us : list (@seq2 T)) (i a : nat) : T :=
  add (entry f i a)
    (fold_left add
       (map (fun k => jac_apply (nth k gts []) (nth k us []) i a)
          (seq 0 (length us)))
       (of_int 0)).
End TaylorRhs.

(** Matrix and vector operations as total functions: the values the
    raising operations return on operands of fitting shapes. *)
Section PureOps.
Context {T : Type} {K : Scalar T}.

Definition dotp (row v : @vec T) : T :=
  sum_list (map (fun gy => mul (fst gy) (snd gy)) (combine row v)).

Definition mvp (m : @mat T) (v : @vec T) : @vec T :=
  map (fun row => dotp row v) m.

Definition vaddp (a b : @vec T) : @vec T :=
  map (fun xy => add (fst xy) (snd xy)) (combine a b).

Definition ncols (b : @mat T) : nat :=
  match b with [] => 0%nat | r :: _ => length r end.

Definition mmp (a b : @mat T) : @mat T :=
  map (fun row => map (fun c => dotp row c) (columns (ncols b) b)) a.

Definition mat_neg (m : @mat T) : @mat T := map (map neg) m.

(** An [ny x ny] matrix. *)
Definition square (ny : nat) (m : @mat T) : Prop :=
  length m = ny /\ Forall (fun row => length row = ny) m.

(** [mi] is a right inverse of [m] on vectors of length [ny]. *)
Definition right_inverse (ny : nat) (m mi : @mat T) : Prop :=
  square ny mi /\
  forall w, length w = ny -> mvp m (mvp mi w) = w.
End PureOps.

(** The two-sample recurrence [y_1 = a v0 + theta x1],
    [y_2 = a y_1 + theta x2] in closed form, its derivative in the
    direction [(dtheta, dx1, dx2, dv0)] and its second-order part. *)
Section Rnn2.
Context {T : Type} {K : Scalar T}.
Variable a : T.

Definition rnn2_solution (theta x1 x2 v0 : T) : @seq2 T :=
  let y1 := add (mul a v0) (mul theta x1) in
  [[y1]; [add (mul a y1) (mul theta x2)]].

Definition rnn2_tangent (theta x1 x2 dtheta dx1 dx2 dv0 : T) : @seq2 T :=
  let d1 := add (mul a dv0) (add (mul dtheta x1) (mul theta dx1)) in
  [[d1]; [add (mul a d1) (add (mul dtheta x2) (mul theta dx2))]].

Definition rnn2_second (dtheta dx1 dx2 : T) : @seq2 T :=
  let r1 := mul dtheta dx1 in
  [[r1]; [add (mul a r1) (mul dtheta dx2)]].

(** [y + eps * d + eps^2 * r], entry by entry. *)
Definition expansion (eps : T) (y d r : @seq2 T) (i j : nat) : T :=
  add (entry y i j)
    (add (mul eps (entry d i j)) (mul (mul eps eps) (entry r i j))).
End Rnn2.

(** The clipping guard of [iter_func] on one entry, in IEEE arithmetic. *)
Definition guard_entry (d : dtype) (x : spec_float) : spec_float :=
  nan_to_zero (K:=IEEE.float_scalar d)
    (clip_entry (K:=IEEE.float_scalar d) (IEEE.clip_lo d) (IEEE.clip_hi d) x).

(** ** [jax.lax.while_loop] *)

(** The loop as it runs, with fuel: [None] is a loop still running when
    the fuel is spent. *)
Fixpoint while_run {St : Type} (fuel : nat) (cond : St -> bool)
    (body : St -> result St) (s : St) : option (result St) :=
  match fuel with
  | O => None
  | S fuel' =>
      if cond s then
        match body s with
        | Ok s' => while_run fuel' cond body s'
        | Raise e => Some (Raise e)
        end
      else Some (Ok s)
  end.

(** Before it runs the loop, [jax.lax.while_loop] evaluates the body once
    on the initial carry, whatever the condition says: an exception of
    the body surfaces there.  It then raises [TypeError] unless the body
    returned a carry of the structure and shapes of the initial one
    ([same_type]). *)
Definition trace_check {St : Type} (same_type : St -> St -> bool)
    (body : St -> result St) (init : St) : result unit :=
  s1 <- body init ;;
  if same_type init s1 then Ok tt else Raise TypeError.

(** [r] once the check [t] has passed. *)
Definition after_check {A : Type} (t : result unit) (r : result A)
    : result A :=
  u <- t ;; r.

Definition while_loop {St : Type} (fuel : nat)
    (same_type : St -> St -> bool) (cond : St -> bool)
    (body : St -> result St) (init : St) : option (result St) :=
  match trace_check same_type body init with
  | Raise e => Some (Raise e)
  | Ok _ => while_run fuel cond body init
  end.

(** Equality of two lists, entry by entry. *)
Fixpoint list_eqb {A : Type} (eqb : A -> A -> bool) (l l' : list A)
    : bool :=
  match l, l' with
  | [], [] => true
  | x :: t, x' :: t' => andb (eqb x x') (list_eqb eqb t t')
  | _, _ => false
  end.

(** [iterate body n s]: the state after [n] executions of the loop body. *)
Fixpoint iterate {St : Type} (body : St -> result St) (n : nat) (s : St)
    : result St :=
  match n with
  | O => Ok s
  | S n' => s' <- body s ;; iterate body n' s'
  end.

(** The value an integer takes in [jnp.int32]: two's complement
    wrap-around. *)
Definition wrap32 (z : Z) : Z := (z + 2 ^ 31) mod 2 ^ 32 - 2 ^ 31.
Definition int32_max : Z := 2 ^ 31 - 1.

(** ** [deer_iter.py] *)

Section Deer.
Context {T : Type} {K : Scalar T}.
(** [xinput], [params], [inv_lin_params] and [shifter_func_params] are
    pytrees the iteration only passes on. *)
Variables X P IP SP : Type.

Variable inv_lin : list (@seq3 T) -> @seq2 T -> IP -> result (@seq2 T).
(** [func2 = jax.vmap(func, in_axes=(0, 0, None))] and
    [jacfunc = jax.vmap(jax.jacfwd(func, argnums=0), in_axes=(0, 0, None))]:
    the caller's [func] seen through the two JAX transformations. *)
Variable func2 : list (@seq2 T) -> X -> P -> result (@seq2 T).
Variable jacfunc : list (@seq2 T) -> X -> P -> result (list (@seq3 T)).
Variable shifter_func : @seq2 T -> SP -> result (list (@seq2 T)).

Definition carry : Type := (T * @seq2 T * list (@seq3 T) * Z)%type.

Definition c_err (c : carry) : T := fst (fst (fst c)).
Definition c_yt (c : carry) : @seq2 T := snd (fst (fst c)).
Definition c_gts (c : carry) : list (@seq3 T) := snd (fst c).
Definition c_iter (c : carry) : Z := snd c.

(** The shape of an array, as the lengths of its rows. *)
Definition shape2 (a : @seq2 T) : list nat := map (@length T) a.
Definition shape3 (g : @seq3 T) : list (list nat) :=
  map (map (@length T)) g.

(** Two carries of one type: the estimates have one shape and the
    bundles as many blocks, of the same shapes.  The error and the
    counter are scalars of a fixed dtype. *)
Definition same_carry_type (c c' : carry) : bool :=
  andb (list_eqb Nat.eqb (shape2 (c_yt c)) (shape2 (c_yt c')))
    (list_eqb (list_eqb (list_eqb Nat.eqb))
       (map shape3 (c_gts c)) (map shape3 (c_gts c'))).

Section Helper.
Variable p_num : Z.
Variable params : P.
Variable xinput : X.
Variable inv_lin_params : IP.
Variable shifter_func_params : SP.
Variable yinit_guess : @seq2 T.
Variable max_iter : Z.
Variable clip_ytnext : bool.

Definition tol : Q :=
  if dtype_eqb dtype_of float64 then 1 # 10000000 else 1 # 10000.

(** [rhs += sum([... for gt, ytp in zip(gts, ytparams)])]. *)
Definition assemble_rhs (f : @seq2 T) (gts : list (@seq3 T))
    (ytparams : list (@seq2 T)) : result (@seq2 T) :=
  terms <- einsum_terms gts ytparams ;;
  s <- py_sum terms ;;
  iadd f s.

Definition clip_guard (yt_next : @seq2 T) : @seq2 T :=
  if clip_ytnext then
    where_isnan_zero
      (jnp_clip yt_next (of_int (- 10 ^ 8)) (of_int (10 ^ 8)))
  else yt_next.

Definition iter_func (iter_inp : carry) : result carry :=
  let '(err, yt, gt_, iiter) := iter_inp in
  ytparams <- shifter_func yt shifter_func_params ;;
  jacs <- jacfunc ytparams xinput params ;;
  let gts := map seq3_neg jacs in
  rhs <- func2 ytparams xinput params ;;
  rhs <- assemble_rhs rhs gts ytparams ;;
  yt_next <- inv_lin gts rhs inv_lin_params ;;
  let yt_next := clip_guard yt_next in
  d <- seq_sub yt_next yt ;;
  err <- jnp_max (seq_map absv d) ;;
  Ok (err, yt_next, gts, wrap32 (iiter + 1)).

(** [max_iter] is a Python integer; in [iiter < max_iter] it is
    converted to the dtype of the counter, [int32], with wrap-around
    (64-bit types enabled, as double precision needs them): a budget
    of [2^31] becomes [-2^31] and the body never runs.  A Python
    integer that does not fit [int64] is refused by the conversion
    and is not modelled. *)
Definition cond_func (iter_inp : carry) : bool :=
  let '(err, _, _, iiter) := iter_inp in
  andb (gt_lit err tol) (iiter <? wrap32 max_iter).

Definition init_carry : carry :=
  (of_int (10 ^ 10), yinit_guess,
   repeat (zeros_square_like yinit_guess) (Z.to_nat p_num), 0).

(** What [jax.lax.while_loop] checks of the carry the body returns
    for the initial one. *)
Definition deer_trace : result unit :=
  trace_check same_carry_type iter_func init_carry.

(** The [jax.lax.while_loop] call of [deer_iteration_helper]. *)
Definition deer_loop (fuel : nat) : option (result carry) :=
  while_loop fuel same_carry_type cond_func iter_func init_carry.

Definition deer_iteration_helper (fuel : nat)
  : option (result (@seq2 T * list (@seq3 T))) :=
  match deer_loop fuel with
  | None => None
  | Some r => Some (c <- r ;; let '(_, yt, gts, _) := c in Ok (yt, gts))
  end.

Definition deer_iteration (fuel : nat) : option (result (@seq2 T)) :=
  match deer_iteration_helper fuel with
  | None => None
  | Some r => Some (yg <- r ;; Ok (fst yg))
  end.
End Helper.

(** [func] is affine in its shift arguments at the shift set of [y]:
    there its Jacobians are the blocks [A] and its value is
    [c0 + sum_k A_k u_k]. *)
Definition affine_at (c0 : @seq2 T) (A : list (@seq3 T)) (params : P)
    (xinput : X) (shifter_func_params : SP) (y : @seq2 T) : Prop :=
  forall us,
    shifter_func y shifter_func_params = Ok us ->
    jacfunc us xinput params = Ok A /\
    func2 us xinput params = assemble_rhs c0 A us.

(** [jax.jvp(partial(func2, ytparams), (xinput, params), tangents)] and
    [jax.jvp(partial(inv_lin, gts), (rhs0, inv_lin_params), tangents)]:
    each returns the primal output and the output tangent. *)
Variable func2_jvp :
  list (@seq2 T) -> X * P -> X * P -> result (@seq2 T * @seq2 T).
Variable inv_lin_jvp :
  list (@seq3 T) -> @seq2 T * IP -> @seq2 T * IP
  -> result (@seq2 T * @seq2 T).

Definition primals_t : Type := (P * X * IP * SP * @seq2 T)%type.

(** [rhs0 = jnp.zeros_like(gts[0][..., 0])]. *)
Definition rhs0_of (gts : list (@seq3 T)) : result (@seq2 T) :=
  match gts with
  | [] => Raise IndexError
  | g0 :: _ => zeros_like_last0 g0
  end.

Definition deer_iteration_jvp (p_num max_iter : Z) (clip_ytnext : bool)
    (primals tangents : primals_t) (fuel : nat)
    : option (result (@seq2 T * @seq2 T)) :=
  let '(params, xinput, inv_lin_params, shifter_func_params, yinit_guess)
    := primals in
  let '(grad_params, grad_xinput, grad_inv_lin_params,
        grad_shifter_func_params, grad_yinit_guess) := tangents in
  match deer_iteration_helper p_num params xinput inv_lin_params
          shifter_func_params yinit_guess max_iter clip_ytnext fuel with
  | None => None
  | Some r =>
      Some (yg <- r ;;
            let '(yt, gts) := yg in
            ytparams <- shifter_func yt shifter_func_params ;;
            df <- func2_jvp ytparams (xinput, params)
                    (grad_xinput, grad_params) ;;
            let grad_func := snd df in
            rhs0 <- rhs0_of gts ;;
            dy <- inv_lin_jvp gts (rhs0, inv_lin_params)
                    (grad_func, grad_inv_lin_params) ;;
            let grad_yt := snd dy in
            Ok (yt, grad_yt))
  end.
End Deer.

(** ** [fsolve_idae.py]: the backward-Euler inverse-linear operator *)

Section SolveIdae.
Context {T : Type} {K : Scalar T}.

(** [jnp.linalg.inv] on one [ny x ny] matrix. *)
Variable linalg_inv : @mat T -> @mat T.

Definition vec_add : @vec T -> @vec T -> result (@vec T) := vec_op add.

(** Modelled from the spec: [matmul_recursive] of [deer/maths.py], which
    is not among the sources.  It evaluates the linear recurrence
    [y_i = A_i y_(i-1) + b_i] from the base case [y0] and returns the
    [nsamples] samples, [y0] first. *)
Fixpoint recurrence_from (yprev : @vec T) (mats : @seq3 T)
    (vecs : @seq2 T) : result (@seq2 T) :=
  match mats, vecs with
  | [], [] => Ok []
  | a :: mats', b :: vecs' =>
      ay <- matvec a yprev ;;
      y <- vec_add ay b ;;
      ys <- recurrence_from y mats' vecs' ;;
      Ok (y :: ys)
  | _, _ => Raise ValueError
  end.

Definition matmul_recursive (mats : @seq3 T) (vecs : @seq2 T)
    (y0 : @vec T) : result (@seq2 T) :=
  ys <- recurrence_from y0 mats vecs ;; Ok (y0 :: ys).

Definition solve_idae_inv_lin (jacs : list (@seq3 T)) (z : @seq2 T)
    (inv_lin_params : list (@vec T)) : result (@seq2 T) :=
  match jacs with
  | [M0; M1] =>
      match inv_lin_params with
      | [y0] =>
          let M0inv := map linalg_inv (tl M0) in
          p <- einsum_ij_jk M0inv (tl M1) ;;
          let M0invM1 := seq3_neg p in
          M0invz <- einsum_ij_j M0inv (tl z) ;;
          matmul_recursive M0invM1 M0invz y0
      | _ => Raise ValueError
      end
  | _ => Raise ValueError
  end.
End SolveIdae.

(** ** [fsolve_idae.py]: the pieces [DEER.compute] hands to the iteration *)

Section BackwardEuler.
Context {T : Type} {K : Scalar T}.
(** [jnp] true division on one entry. *)
Variable div : T -> T -> T.
Variables XI P LP : Type.
(** The caller's residual [func(dydt, y, xinp, params)] on one sample. *)
Variable func : @vec T -> @vec T -> XI -> P -> result (@vec T).

(** [linfunc]: [ym1 = jnp.concatenate((y[:1], y[:-1]), axis=0)]. *)
Definition linfunc (y : @seq2 T) (lin_params : LP) : list (@seq2 T) :=
  let ym1 := firstn 1 y ++ removelast y in
  [y; ym1].

(** [dt_partial = tpts[1:] - tpts[:-1]] and
    [dt = jnp.concatenate((dt_partial[:1], dt_partial), axis=0)]; the two
    slices always have one length. *)
Definition time_steps (tpts : @vec T) : @vec T :=
  let dt_partial :=
    map (fun p => sub (fst p) (snd p))
      (combine (tl tpts) (removelast tpts)) in
  firstn 1 dt_partial ++ dt_partial.

(** [func2] of [DEER.compute], on one sample. *)
Definition compute_func2 (yshifts : list (@vec T)) (x : T * XI)
    (params : P) : result (@vec T) :=
  match yshifts with
  | [y; ym1] =>
      let '(dt, xinp) := x in
      d <- vec_op sub y ym1 ;;
      func (map (fun v => div v dt) d) y xinp params
  | _ => Raise ValueError
  end.
End BackwardEuler.

(** The recurrence and the sum of two sequences as total functions. *)
Section PureRecurrence.
Context {T : Type} {K : Scalar T}.

Fixpoint recp (yprev : @vec T) (mats : @seq3 T) (vecs : @seq2 T)
    : @seq2 T :=
  match mats, vecs with
  | a :: mats', b :: vecs' =>
      let y := vaddp (mvp a yprev) b in
      y :: recp y mats' vecs'
  | _, _ => []
  end.

Definition saddp (a b : @seq2 T) : @seq2 T :=
  map (fun p => vaddp (fst p) (snd p)) (combine a b).
End PureRecurrence.

(** [jnp.isfinite] on one entry. *)
Definition fisfinite (x : spec_float) : bool :=
  match x with
  | S754_zero _ | S754_finite _ _ _ => true
  | _ => false
  end.

(** [x <= c] for a Python float literal [c], converted to the dtype of
    [x]. *)
Definition fle_lit (d : dtype) (x : spec_float) (c : Q) : bool :=
  SFleb x (IEEE.fof_lit d c).

(** ** Callers used to exercise the iteration

    Each caller supplies [func] through its two JAX views ([func2],
    [jacfunc]), a [shifter_func] and an [inv_lin]. *)

Module Callers.

(** *** A linear recurrence [y_i = a * y_(i-1) + theta * x_i] with one
    state variable, [y_(-1) = y0] (the recurrent-network use of the
    iteration): the shifter prepends [y0] and drops the last sample,
    [inv_lin] solves [y_i + G_i y_(i-1) = rhs_i] by forward
    substitution. *)
Section Recurrence.
Context {T : Type} {K : Scalar T}.
Variable a : T.

Definition rnn_shifter (y : @seq2 T) (y0 : @vec T)
  : result (list (@seq2 T)) :=
  Ok [y0 :: removelast y].

Definition rnn_func2 (us : list (@seq2 T)) (x : @seq2 T) (theta : T)
  : result (@seq2 T) :=
  match us with
  | [u] => seq_add (seq_map (mul a) u) (seq_map (mul theta) x)
  | _ => Raise ValueError
  end.

Definition rnn_jacfunc (us : list (@seq2 T)) (x : @seq2 T) (theta : T)
  : result (list (@seq3 T)) :=
  match us with
  | [u] => Ok [map (map (fun _ => [a])) u]
  | _ => Raise ValueError
  end.

Definition rnn_inv_lin (gts : list (@seq3 T)) (rhs : @seq2 T)
    (ilp : list (@vec T)) : result (@seq2 T) :=
  match gts, ilp with
  | [g], [y0] => recurrence_from y0 (seq3_neg g) rhs
  | _, _ => Raise ValueError
  end.

(** Tangent of [theta * x + a * u] in [(x, theta)] at fixed [u]. *)
Definition rnn_func2_jvp (us : list (@seq2 T)) (pr tg : @seq2 T * T)
  : result (@seq2 T * @seq2 T) :=
  let '(x, theta) := pr in
  let '(dx, dtheta) := tg in
  p <- rnn_func2 us x theta ;;
  t <- seq_add (seq_map (mul dtheta) x) (seq_map (mul theta) dx) ;;
  Ok (p, t).

(** [rnn_inv_lin] is linear in [(rhs, y0)]: its tangent is itself on
    the tangents. *)
Definition rnn_inv_lin_jvp (gts : list (@seq3 T))
    (pr tg : @seq2 T * list (@vec T)) : result (@seq2 T * @seq2 T) :=
  p <- rnn_inv_lin gts (fst pr) (snd pr) ;;
  t <- rnn_inv_lin gts (fst tg) (snd tg) ;;
  Ok (p, t).
End Recurrence.

(** *** Pointwise problems [y = f(y)] with one state variable *)
Section Pointwise.
Context {T : Type} {K : Scalar T}.
Variables f f' : T -> T.

Definition id_shifter (y : @seq2 T) (_ : unit)
  : result (list (@seq2 T)) := Ok [y].

Definition pw_func2 (us : list (@seq2 T)) (_ _ : unit)
  : result (@seq2 T) :=
  match us with
  | [u] => Ok (seq_map f u)
  | _ => Raise ValueError
  end.

Definition pw_jacfunc (us : list (@seq2 T)) (_ _ : unit)
  : result (list (@seq3 T)) :=
  match us with
  | [u] => Ok [map (map (fun v => [f' v])) u]
  | _ => Raise ValueError
  end.


(** An [inv_lin] that returns the right-hand side. *)
Definition rhs_inv_lin (gts : list (@seq3 T)) (rhs : @seq2 T) (_ : unit)
  : result (@seq2 T) := Ok rhs.
End Pointwise.

(** [inv_lin] for [y_i + g_i * y_i = rhs_i] in IEEE arithmetic. *)
Definition diag_inv_lin (d : dtype) (gts : list (@seq3 spec_float))
    (rhs : @seq2 spec_float) (_ : unit) : result (@seq2 spec_float) :=
  match gts with
  | [g] =>
      zip_strict ValueError
        (fun m row =>
           match m, row with
           | [[gi]], [r] =>
               Ok [IEEE.fdiv d r (IEEE.fadd d (IEEE.fof_int d 1) gi)]
           | _, _ => Raise ValueError
           end) g rhs
  | _ => Raise ValueError
  end.

(** [f(u) = where(u <= 0, 1 - (2^30 - 1) * u, 1)] and its derivative. *)
Definition kink (d : dtype) (u : spec_float) : spec_float :=
  if SFleb u (IEEE.fof_int d 0)
  then IEEE.fsub d (IEEE.fof_int d 1)
         (IEEE.fmul d (IEEE.fof_int d (2 ^ 30 - 1)) u)
  else IEEE.fof_int d 1.

Definition kink' (d : dtype) (u : spec_float) : spec_float :=
  if SFleb u (IEEE.fof_int d 0)
  then IEEE.fof_int d (- (2 ^ 30 - 1))
  else IEEE.fof_int d 0.

(** An [inv_lin] that returns a fixed array. *)
Definition const_inv_lin {T : Type} (v : @seq2 T) (gts : list (@seq3 T))
    (rhs : @seq2 T) (_ : unit) : result (@seq2 T) := Ok v.

End Callers.

(** ** Concrete runs in double precision *)

Module Runs.
Import Callers.

Definition K64 : Scalar spec_float := IEEE.float_scalar float64.
Definition i64 (z : Z) : spec_float := IEEE.fof_int float64 z.
Definition half : spec_float := IEEE.fof_lit float64 (1 # 2).
(** [1.5] and [2^-30]. *)
Definition one_and_half : spec_float :=
  S754_finite false 6755399441055744 (-52).

Definition rnn_jvp :=
  deer_iteration_jvp (K:=K64) (rnn_inv_lin (K:=K64))
    (rnn_func2 (K:=K64) half) (rnn_jacfunc half)
    (rnn_shifter (T:=spec_float)) (rnn_func2_jvp (K:=K64) half)
    (rnn_inv_lin_jvp (K:=K64)).

Definition ones2 : @seq2 spec_float := [[i64 1]; [i64 1]].
Definition zeros2 : @seq2 spec_float := [[i64 0]; [i64 0]].
Definition rnn_solution : @seq2 spec_float := [[i64 1]; [one_and_half]].

(** The pointwise problem [y = kink(y)]. *)
Definition kink_loop :=
  deer_loop (K:=K64) (diag_inv_lin float64) (pw_func2 (kink float64))
    (pw_jacfunc (kink' float64)) (id_shifter (T:=spec_float)).

(** [y = y * y] with an [inv_lin] that returns the right-hand side: the
    estimates [2, -4, -16, -256, ...] never settle. *)
Definition sq (u : spec_float) : spec_float := IEEE.fmul float64 u u.
Definition sq' (u : spec_float) : spec_float := IEEE.fadd float64 u u.
Definition sq_loop :=
  deer_loop (K:=K64) (rhs_inv_lin (T:=spec_float)) (pw_func2 sq)
    (pw_jacfunc sq') (id_shifter (T:=spec_float)).
Definition sq_iter_func :=
  iter_func (K:=K64) (rhs_inv_lin (T:=spec_float)) (pw_func2 sq)
    (pw_jacfunc sq') (id_shifter (T:=spec_float)).
Definition sq_helper :=
  deer_iteration_helper (K:=K64) (rhs_inv_lin (T:=spec_float))
    (pw_func2 sq) (pw_jacfunc sq') (id_shifter (T:=spec_float)).
Definition sq_iteration :=
  deer_iteration (K:=K64) (rhs_inv_lin (T:=spec_float)) (pw_func2 sq)
    (pw_jacfunc sq') (id_shifter (T:=spec_float)).

(** One shifted sequence and one Jacobian block ([p_num = 1]) handed to
    the backward-Euler operator, which unpacks two blocks. *)
Definition idae_inv_lin :=
  solve_idae_inv_lin (K:=K64) (fun m => m).
Definition mismatch_iteration :=
  deer_iteration (K:=K64) idae_inv_lin (pw_func2 sq) (pw_jacfunc sq')
    (id_shifter (T:=spec_float)).
Definition mismatch_iter_func :=
  iter_func (K:=K64) idae_inv_lin (pw_func2 sq) (pw_jacfunc sq')
    (id_shifter (T:=spec_float)).

(** An [inv_lin] whose output holds a not-a-number, both infinities and
    an ordinary value. *)
Definition wild : @seq2 spec_float :=
  [[S754_nan]; [S754_infinity false]; [S754_infinity true]; [i64 5]].
Definition wild_iteration :=
  deer_iteration (K:=K64) (const_inv_lin wild) (pw_func2 sq)
    (pw_jacfunc sq') (id_shifter (T:=spec_float)).
Definition zeros4 : @seq2 spec_float :=
  [[i64 0]; [i64 0]; [i64 0]; [i64 0]].

(** The recurrence [y_i = 2 * y_(i-1) + theta * x_i] over the
    integers. *)
Definition KZ : Scalar Z := Exact.exact_scalar float64.

(** Inverse of a [2 x 2] integer matrix of determinant [1] or [-1]. *)
Definition inv2 (m : @mat Z) : @mat Z :=
  match m with
  | [[a; b]; [c; d]] =>
      let det := a * d - b * c in
      [[d / det; (- b) / det]; [(- c) / det; a / det]]
  | _ => m
  end.

(** Blocks and right-hand side of a three-sample system; the blocks of
    sample [0] are not used by the operator. *)
Definition idae_M0 : @seq3 Z :=
  [[[0; 0]; [0; 0]]; [[1; 1]; [0; 1]]; [[2; 1]; [1; 1]]].
Definition idae_M1 : @seq3 Z :=
  [[[5; 5]; [5; 5]]; [[1; 0]; [2; 1]]; [[0; 1]; [1; 0]]].
Definition idae_z : @seq2 Z := [[7; 7]; [1; 2]; [3; 4]].



(** Single and double precision: an [inv_lin] that returns [2^-20],
    which lies between the two tolerances. *)
Definition K32 : Scalar spec_float := IEEE.float_scalar float32.
Definition two_m20_32 : spec_float := S754_finite false 8388608 (-43).
Definition two_m20_64 : spec_float :=
  S754_finite false 4503599627370496 (-72).
Definition step32_loop :=
  deer_loop (K:=K32) (const_inv_lin [[two_m20_32]])
    (pw_func2 (fun u => u))
    (pw_jacfunc (fun _ => IEEE.fof_int float32 1))
    (id_shifter (T:=spec_float)).
Definition step32_iter_func :=
  iter_func (K:=K32) (const_inv_lin [[two_m20_32]])
    (pw_func2 (fun u => u))
    (pw_jacfunc (fun _ => IEEE.fof_int float32 1))
    (id_shifter (T:=spec_float)).
Definition step64_loop :=
  deer_loop (K:=K64) (const_inv_lin [[two_m20_64]])
    (pw_func2 (fun u => u))
    (pw_jacfunc (fun _ => IEEE.fof_int float64 1))
    (id_shifter (T:=spec_float)).

(** The check of the body by [jax.lax.while_loop] for these callers. *)
Definition sq_trace :=
  deer_trace (K:=K64) (rhs_inv_lin (T:=spec_float)) (pw_func2 sq)
    (pw_jacfunc sq') (id_shifter (T:=spec_float)).
Definition kink_trace :=
  deer_trace (K:=K64) (diag_inv_lin float64) (pw_func2 (kink float64))
    (pw_jacfunc (kink' float64)) (id_shifter (T:=spec_float)).
Definition wild_trace :=
  deer_trace (K:=K64) (const_inv_lin wild) (pw_func2 sq)
    (pw_jacfunc sq') (id_shifter (T:=spec_float)).
Definition wild_loop :=
  deer_loop (K:=K64) (const_inv_lin wild) (pw_func2 sq)
    (pw_jacfunc sq') (id_shifter (T:=spec_float)).
Definition rnn_iteration :=
  deer_iteration (K:=K64) (rnn_inv_lin (K:=K64))
    (rnn_func2 (K:=K64) half) (rnn_jacfunc half)
    (rnn_shifter (T:=spec_float)).
Definition kink_iteration :=
  deer_iteration (K:=K64) (diag_inv_lin float64)
    (pw_func2 (kink float64)) (pw_jacfunc (kink' float64))
    (id_shifter (T:=spec_float)).
Definition step32_trace :=
  deer_trace (K:=K32) (const_inv_lin [[two_m20_32]])
    (pw_func2 (fun u => u))
    (pw_jacfunc (fun _ => IEEE.fof_int float32 1))
    (id_shifter (T:=spec_float)).
Definition step32_iteration :=
  deer_iteration (K:=K32) (const_inv_lin [[two_m20_32]])
    (pw_func2 (fun u => u))
    (pw_jacfunc (fun _ => IEEE.fof_int float32 1))
    (id_shifter (T:=spec_float)).

(** A second right-hand side for the same blocks. *)
Definition idae_z' : @seq2 Z := [[0; 0]; [2; -1]; [5; 3]].

(** The residual [dydt + y] of [dy/dt = -y], on one sample. *)
Definition decay (dydt y : @vec spec_float) (_ _ : unit)
  : result (@vec spec_float) := vec_op (IEEE.fadd float64) dydt y.
Definition two : spec_float := S754_finite false 4503599627370496 (-51).
End Runs.

(** * Properties *)

(** ** The error monad *)

Lemma bind_ok_inv {A B : Type} (m : result A) (k : A -> result B) (b : B) :
  bind m k = Ok b -> exists a, m = Ok a /\ k a = Ok b.
Proof.
  destruct m as [a|e]; simpl; intros H; [exists a; auto | discriminate].
Qed.

Tactic Notation "bind_inv" hyp(H) "as" ident(x) ident(Hx) :=
  apply bind_ok_inv in H; destruct H as (x & Hx & H).

(** ** The loop *)

Section WhileLoop.
Context {St : Type}.
Variable cond : St -> bool.
Variable body : St -> result St.

Lemma while_run_exit (fuel : nat) : forall s s',
  while_run fuel cond body s = Some (Ok s') -> cond s' = false.
Proof.
  induction fuel as [|fuel IH]; simpl; intros s s' H; [discriminate|].
  destruct (cond s) eqn:Hc.
  - destruct (body s) as [s1|e]; [eauto | discriminate].
  - congruence.
Qed.

(** A finished loop ran the body some [n] times, and the condition held
    before each of the [n] executions. *)
Lemma while_run_trace (fuel : nat) : forall s s',
  while_run fuel cond body s = Some (Ok s') ->
  exists n, (n < fuel)%nat /\ iterate body n s = Ok s' /\
    forall k, (k < n)%nat ->
      exists sk, iterate body k s = Ok sk /\ cond sk = true.
Proof.
  induction fuel as [|fuel IH]; simpl; intros s s' H; [discriminate|].
  destruct (cond s) eqn:Hc.
  - destruct (body s) as [s1|e] eqn:Hb; [|discriminate].
    destruct (IH _ _ H) as (n & Hn & Hit & Hk).
    exists (S n); repeat split; [lia | simpl; rewrite Hb; exact Hit |].
    intros [|k] Hlt; [exists s; auto|].
    simpl; rewrite Hb; apply Hk; lia.
  - exists O; repeat split; [lia | simpl; congruence | intros k Hk; lia].
Qed.

Lemma while_run_run : forall n fuel s s',
  iterate body n s = Ok s' ->
  (forall k, (k < n)%nat ->
     exists sk, iterate body k s = Ok sk /\ cond sk = true) ->
  cond s' = false ->
  (n < fuel)%nat ->
  while_run fuel cond body s = Some (Ok s').
Proof.
  induction n as [|n IH]; intros fuel s s' Hit Hk Hc Hf;
    (destruct fuel as [|fuel]; [lia|]); simpl in *.
  - injection Hit as <-. now rewrite Hc.
  - destruct (Hk O) as (s0 & H0 & Hc0); [lia|].
    simpl in H0; injection H0 as <-. rewrite Hc0.
    destruct (body s) as [s1|e] eqn:Hb; [|discriminate].
    apply IH; auto; [|lia].
    intros k Hlt. destruct (Hk (S k)) as (sk & Hsk & Hck); [lia|].
    simpl in Hsk; rewrite Hb in Hsk. eauto.
Qed.


Lemma iterate_prefix : forall n s s',
  iterate body (S n) s = Ok s' ->
  exists sn, iterate body n s = Ok sn /\ body sn = Ok s'.
Proof.
  induction n as [|n IH]; intros s s' H.
  - exists s; split; auto. simpl in H. now destruct (body s).
  - change (iterate body (S (S n)) s)
      with (s1 <- body s ;; iterate body (S n) s1) in H.
    destruct (body s) as [s1|e] eqn:Hb; [|discriminate]. simpl in H.
    destruct (IH _ _ H) as (sn & Hn & Hs).
    exists sn; split; auto. simpl. now rewrite Hb.
Qed.

(** The call: the check of the body on the initial carry, then the
    loop. *)
Variable same_type : St -> St -> bool.

Lemma trace_check_raise (init : St) (e : exn) :
  body init = Raise e -> trace_check same_type body init = Raise e.
Proof. unfold trace_check. now intros ->. Qed.

Lemma trace_check_ok (init s1 : St) :
  body init = Ok s1 ->
  trace_check same_type body init
  = if same_type init s1 then Ok tt else Raise TypeError.
Proof. unfold trace_check. now intros ->. Qed.

Lemma trace_check_inv (init : St) :
  trace_check same_type body init = Ok tt ->
  exists s1, body init = Ok s1 /\ same_type init s1 = true.
Proof.
  unfold trace_check. destruct (body init) as [s1|e]; [|discriminate].
  simpl. destruct (same_type init s1) eqn:Hs; [|discriminate].
  intros _. exists s1. split; [reflexivity | exact Hs].
Qed.

Lemma while_loop_of_run (fuel : nat) (init : St) (r : result St) :
  while_run fuel cond body init = Some r ->
  while_loop fuel same_type cond body init
  = Some (after_check (trace_check same_type body init) r).
Proof.
  unfold while_loop, after_check. intros H.
  now destruct (trace_check same_type body init) as [[]|e].
Qed.

Lemma while_loop_ok (fuel : nat) (init s' : St) :
  while_loop fuel same_type cond body init = Some (Ok s') ->
  trace_check same_type body init = Ok tt /\
  while_run fuel cond body init = Some (Ok s').
Proof.
  unfold while_loop.
  destruct (trace_check same_type body init) as [[]|e];
    [auto | discriminate].
Qed.

End WhileLoop.

(** ** Arrays: what a successful operation returned *)

Section ArrayFacts.
Context {T : Type} {K : Scalar T}.

Lemma zip_strict_spec {A B C : Type} (e : exn) (f : A -> B -> result C) :
  forall a b l,
    zip_strict e f a b = Ok l ->
    length l = length a /\ length b = length a /\
    forall i da db dl, (i < length a)%nat ->
      f (nth i a da) (nth i b db) = Ok (nth i l dl).
Proof.
  induction a as [|x a IH]; intros [|y b] l H; simpl in H;
    try discriminate.
  - injection H as <-. repeat split. intros i ? ? ? Hi. inversion Hi.
  - bind_inv H as z Hz. bind_inv H as zs Hzs. injection H as <-.
    destruct (IH _ _ Hzs) as (Hl & Hb & Hn).
    simpl. repeat split; try congruence.
    intros [|i] da db dl Hi; simpl; [assumption|].
    apply Hn. lia.
Qed.

Lemma zip_strict_pure {A B C : Type} (e : exn) (g : A -> B -> C) :
  forall a b l,
    zip_strict e (fun x y => Ok (g x y)) a b = Ok l ->
    l = map (fun xy => g (fst xy) (snd xy)) (combine a b).
Proof.
  induction a as [|x a IH]; intros [|y b] l H; simpl in H;
    try discriminate.
  - now injection H as <-.
  - bind_inv H as zs Hzs. injection H as <-.
    simpl. f_equal. now apply IH.
Qed.

Lemma mapM_spec {A B : Type} (f : A -> result B) :
  forall l r,
    mapM f l = Ok r ->
    length r = length l /\
    forall i d d', (i < length l)%nat -> f (nth i l d) = Ok (nth i r d').
Proof.
  induction l as [|x l IH]; intros r H; simpl in H.
  - injection H as <-. split; auto. intros i ? ? Hi. inversion Hi.
  - bind_inv H as y Hy. bind_inv H as ys Hys. injection H as <-.
    destruct (IH _ Hys) as (Hl & Hn). simpl. split; [congruence|].
    intros [|i] d d' Hi; simpl; [assumption|]. apply Hn. lia.
Qed.

Lemma dot_spec (row v : (@vec T)) (x : T) :
  dot row v = Ok x ->
  x = sum_list (map (fun gy => mul (fst gy) (snd gy)) (combine row v)).
Proof.
  unfold dot. intros H. bind_inv H as ps Hps. injection H as <-.
  now rewrite (zip_strict_pure _ _ _ _ Hps).
Qed.

(** Entries of [einsum("...ij,...j->...i", g, u)]. *)
Lemma einsum_entry (g : (@seq3 T)) (u t : (@seq2 T)) :
  einsum_ij_j g u = Ok t ->
  length t = length g /\
  forall i, (i < length g)%nat ->
    length (nth i t []) = length (nth i g []) /\
    forall a, (a < length (nth i g []))%nat ->
      entry t i a = jac_apply g u i a.
Proof.
  unfold einsum_ij_j. intros H.
  destruct (zip_strict_spec _ _ _ _ H) as (Hl & _ & Hn).
  split; [exact Hl|]. intros i Hi.
  specialize (Hn i [] [] [] Hi). unfold matvec in Hn.
  destruct (mapM_spec _ _ Hn) as (Hl' & Hn').
  split; [exact Hl'|]. intros a Ha.
  specialize (Hn' a [] (of_int 0) Ha).
  unfold entry, jac_apply. now apply dot_spec in Hn'.
Qed.

Lemma einsum_terms_spec : forall (gts : list (@seq3 T)) (us : list (@seq2 T)) ts,
  einsum_terms gts us = Ok ts ->
  length ts = Nat.min (length gts) (length us) /\
  forall k, (k < length ts)%nat ->
    einsum_ij_j (nth k gts []) (nth k us []) = Ok (nth k ts []).
Proof.
  induction gts as [|g gts IH]; intros us ts H.
  - simpl in H. injection H as <-. split; auto. intros k Hk. inversion Hk.
  - destruct us as [|u us]; simpl in H.
    + injection H as <-. split; auto. intros k Hk. inversion Hk.
    + bind_inv H as t1 Ht. bind_inv H as ts' Hts. injection H as <-.
      destruct (IH _ _ Hts) as (Hl & Hn). simpl. split; [lia|].
      intros [|k] Hk; [assumption|]. apply Hn. lia.
Qed.

Lemma same_shape_trans (a b c : (@seq2 T)) :
  same_shape a b -> same_shape b c -> same_shape a c.
Proof.
  intros [H1 H2] [H3 H4]. split; [congruence|].
  intros i Hi. rewrite H2 by assumption. apply H4. lia.
Qed.

Lemma seq_map_shape (f : T -> T) (a : (@seq2 T)) : same_shape a (seq_map f a).
Proof.
  unfold seq_map. split; [now rewrite length_map|].
  intros i Hi.
  change (@nil T) with (map f []) at 2.
  now rewrite map_nth, length_map.
Qed.

Lemma seq_map_entry (f : T -> T) (a : (@seq2 T)) (i j : nat) :
  (i < length a)%nat -> (j < length (nth i a []))%nat ->
  entry (seq_map f a) i j = f (entry a i j).
Proof.
  intros Hi Hj. unfold entry, seq_map.
  change (@nil T) with (map f []) at 1. rewrite map_nth.
  rewrite (nth_indep _ (of_int 0) (f (of_int 0)))
    by now rewrite length_map.
  now rewrite map_nth.
Qed.

Lemma vec_op_spec (f : T -> T -> T) (a b r : (@vec T)) :
  vec_op f a b = Ok r ->
  length r = length a /\ length b = length a /\
  forall j d, (j < length a)%nat ->
    nth j r d = f (nth j a d) (nth j b d).
Proof.
  unfold vec_op. intros H.
  destruct (zip_strict_spec _ _ _ _ H) as (Hl & Hb & Hn).
  repeat split; auto. intros j d Hj.
  specialize (Hn j d d d Hj). now injection Hn.
Qed.

Lemma seq_op_spec (f : T -> T -> T) (a b r : (@seq2 T)) :
  seq_op f a b = Ok r ->
  same_shape a r /\ same_shape a b /\
  forall i j, (i < length a)%nat -> (j < length (nth i a []))%nat ->
    entry r i j = f (entry a i j) (entry b i j).
Proof.
  unfold seq_op. intros H.
  destruct (zip_strict_spec _ _ _ _ H) as (Hl & Hb & Hn).
  assert (Hrow : forall i, (i < length a)%nat ->
            vec_op f (nth i a []) (nth i b []) = Ok (nth i r []))
    by (intros i Hi; now apply Hn).
  repeat split; try congruence.
  - intros i Hi. destruct (vec_op_spec _ _ _ (Hrow i Hi)) as (H1 & _).
    congruence.
  - intros i Hi. destruct (vec_op_spec _ _ _ (Hrow i Hi)) as (_ & H1 & _).
    congruence.
  - intros i j Hi Hj.
    destruct (vec_op_spec _ _ _ (Hrow i Hi)) as (_ & _ & H1).
    unfold entry. now apply H1.
Qed.

Lemma fold_seq_add_spec : forall (ts : list (@seq2 T)) (acc r : (@seq2 T)),
  fold_seq_add acc ts = Ok r ->
  same_shape acc r /\
  (forall t, In t ts -> same_shape acc t) /\
  forall i j, (i < length acc)%nat -> (j < length (nth i acc []))%nat ->
    entry r i j
    = fold_left add (map (fun t => entry t i j) ts) (entry acc i j).
Proof.
  induction ts as [|t ts IH]; intros acc r H; simpl in H.
  - injection H as <-.
    split; [split; auto|]. split; [intros t0 []|reflexivity].
  - bind_inv H as acc' Hacc.
    destruct (seq_op_spec _ _ _ Hacc) as (Hs1 & Hs2 & He).
    destruct (IH _ _ H) as (Hs3 & Hin & He').
    split; [exact (same_shape_trans Hs1 Hs3)|]. split.
    + intros t1 Ht1. destruct Ht1 as [<-|Ht1]; [assumption|].
      exact (same_shape_trans Hs1 (Hin _ Ht1)).
    + intros i j Hi Hj. simpl. rewrite <- He by assumption.
      destruct Hs1 as [Hl Hr].
      apply He'; [lia | rewrite <- Hr; assumption].
Qed.

Lemma map_nth_seq {A B : Type} (g : A -> B) (l : list A) (d : A) :
  map g l = map (fun k => g (nth k l d)) (seq 0 (length l)).
Proof.
  induction l as [|x l IH]; simpl; [reflexivity|].
  f_equal. rewrite <- seq_shift, map_map. exact IH.
Qed.

(** The assembled right-hand side, entry by entry. *)
Lemma assemble_rhs_entry (f rhs : (@seq2 T)) (gts : list (@seq3 T))
    (us : list (@seq2 T)) :
  assemble_rhs f gts us = Ok rhs ->
  length gts = length us ->
  same_shape f rhs /\
  forall i a, (i < length f)%nat -> (a < length (nth i f []))%nat ->
    entry rhs i a = taylor_rhs f gts us i a.
Proof.
  unfold assemble_rhs. intros H Hlen.
  bind_inv H as ts Hts. bind_inv H as s Hs.
  destruct (einsum_terms_spec _ _ Hts) as (Hl & Hn).
  rewrite Hlen, Nat.min_id in Hl.
  unfold taylor_rhs.
  destruct ts as [|t0 ts'].
  - simpl in Hs. injection Hs as <-. simpl in H. injection H as <-.
    split; [apply seq_map_shape|]. intros i a Hi Hj.
    rewrite seq_map_entry by assumption.
    simpl in Hl. rewrite <- Hl. reflexivity.
  - simpl in Hs. bind_inv Hs as r Hr. injection Hs as <-. simpl in H.
    destruct (seq_op_spec _ _ _ H) as (Hs1 & Hs2 & He).
    destruct (fold_seq_add_spec _ _ Hr) as (Hs3 & Hin & He').
    split; [assumption|]. intros i a Hi Hj.
    rewrite He by assumption. f_equal.
    pose proof (seq_map_shape (add (of_int 0)) t0) as Hs0.
    assert (Hsh0 : same_shape f (seq_map (add (of_int 0)) t0)).
    { eapply same_shape_trans; [exact Hs2|].
      destruct Hs3 as [A1 A2]. split; [lia|].
      intros k Hk. symmetry. apply A2. lia. }
    assert (Hsh : forall t, In t (t0 :: ts') ->
              (i < length t)%nat /\ (a < length (nth i t []))%nat).
    { intros t [<-|Ht].
      - destruct Hsh0 as [C1 C2], Hs0 as [B1 B2].
        split; [lia|]. rewrite B2 by lia. rewrite <- C2; assumption.
      - destruct Hsh0 as [C1 C2], (Hin t Ht) as [B1 B2].
        split; [lia|]. rewrite <- B2 by lia. rewrite <- C2; assumption. }
    destruct Hsh0 as [C1 C2].
    rewrite He' by (try lia; rewrite <- C2; assumption).
    destruct (Hsh t0 (or_introl eq_refl)) as [D1 D2].
    rewrite seq_map_entry by assumption.
    change (fold_left add (map (fun t => entry t i a) ts')
              (add (of_int 0) (entry t0 i a)))
      with (fold_left add (map (fun t => entry t i a) (t0 :: ts'))
              (of_int 0)).
    f_equal. rewrite (map_nth_seq _ (t0 :: ts') []), Hl.
    apply map_ext_in. intros k Hk. apply in_seq in Hk.
    assert (Hk' : (k < length (t0 :: ts'))%nat) by lia.
    destruct (einsum_entry _ _ (Hn k Hk')) as (Hlt & Hrow).
    assert (Hink : In (nth k (t0 :: ts') []) (t0 :: ts'))
      by now apply nth_In.
    destruct (Hsh _ Hink) as [E1 E2].
    destruct (Hrow i) as [F1 F2]; [lia|].
    apply F2. lia.
Qed.
End ArrayFacts.

(** ** Exact arithmetic *)

Lemma exact_Z (d : dtype) : ExactScalar (Exact.exact_scalar d).
Proof.
  constructor; simpl.
  - exact Zth.
  - reflexivity.
  - apply Z.max_id.
  - intros z c. unfold Exact.zgt_lit. rewrite Qlt_alt.
    destruct (c ?= inject_Z z)%Q; split; congruence.
Qed.

Section ExactFacts.
Context {T : Type} {K : Scalar T} {E : ExactScalar K}.

Add Ring exact_ring : (ex_ring (K:=K)).

Lemma zip_strict_map_l {A B C : Type} (e : exn)
    (f : A -> B -> result C) (h : A -> A) (h' : C -> C) :
  (forall x y, f (h x) y = rmap h' (f x y)) ->
  forall a b,
    zip_strict e f (map h a) b = rmap (map h') (zip_strict e f a b).
Proof.
  intros Hf. induction a as [|x a IH]; intros [|y b]; simpl; auto.
  rewrite Hf, IH.
  destruct (f x y); simpl; auto.
  destruct (zip_strict e f a b); reflexivity.
Qed.

Lemma mapM_map {A B : Type} (f : A -> result B) (h : A -> A)
    (h' : B -> B) :
  (forall x, f (h x) = rmap h' (f x)) ->
  forall l, mapM f (map h l) = rmap (map h') (mapM f l).
Proof.
  intros Hf. induction l as [|x l IH]; simpl; auto.
  rewrite Hf, IH.
  destruct (f x); simpl; auto.
  destruct (mapM f l); reflexivity.
Qed.

Lemma fold_left_add_neg : forall (xs : list T) (x : T),
  fold_left add (map neg xs) (neg x) = neg (fold_left add xs x).
Proof.
  induction xs as [|y xs IH]; intros x; simpl; [reflexivity|].
  rewrite <- IH. f_equal. ring.
Qed.

Lemma sum_list_neg (l : list T) :
  sum_list (map neg l) = neg (sum_list l).
Proof.
  destruct l as [|x xs]; simpl; [ring | apply fold_left_add_neg].
Qed.

Lemma dot_neg (row v : @vec T) :
  dot (map neg row) v = rmap neg (dot row v).
Proof.
  unfold dot.
  rewrite (zip_strict_map_l ValueError (fun g y => Ok (mul g y)) neg neg).
  - destruct (zip_strict ValueError (fun g y => Ok (mul g y)) row v);
      simpl; [|reflexivity].
    now rewrite sum_list_neg.
  - intros x y. simpl. f_equal. ring.
Qed.

Lemma einsum_neg (g : @seq3 T) (u : @seq2 T) :
  einsum_ij_j (seq3_neg g) u = rmap (seq_map neg) (einsum_ij_j g u).
Proof.
  unfold einsum_ij_j, seq3_neg, seq_map.
  apply zip_strict_map_l. intros m v. unfold matvec.
  apply mapM_map. intros row. apply dot_neg.
Qed.

Lemma einsum_terms_neg : forall (gts : list (@seq3 T))
    (us : list (@seq2 T)),
  einsum_terms (map seq3_neg gts) us
  = rmap (map (seq_map neg)) (einsum_terms gts us).
Proof.
  induction gts as [|g gts IH]; intros [|u us]; simpl; auto.
  rewrite einsum_neg, IH.
  destruct (einsum_ij_j g u); simpl; auto.
  destruct (einsum_terms gts us); reflexivity.
Qed.

Lemma vec_add_neg : forall (a b : @vec T),
  vec_op add (map neg a) (map neg b) = rmap (map neg) (vec_op add a b).
Proof.
  unfold vec_op.
  induction a as [|x a IH]; intros [|y b]; simpl; auto.
  rewrite IH.
  destruct (zip_strict TypeError (fun x0 y0 => Ok (add x0 y0)) a b);
    simpl; [|reflexivity].
  do 2 f_equal. ring.
Qed.

Lemma seq_add_neg : forall (a b : @seq2 T),
  seq_add (seq_map neg a) (seq_map neg b)
  = rmap (seq_map neg) (seq_add a b).
Proof.
  unfold seq_add, seq_op, seq_map.
  induction a as [|x a IH]; intros [|y b]; simpl; auto.
  rewrite vec_add_neg, IH.
  destruct (vec_op add x y); simpl; auto.
  destruct (zip_strict TypeError (vec_op add) a b); reflexivity.
Qed.

Lemma fold_seq_add_neg : forall (ts : list (@seq2 T)) (acc : @seq2 T),
  fold_seq_add (seq_map neg acc) (map (seq_map neg) ts)
  = rmap (seq_map neg) (fold_seq_add acc ts).
Proof.
  induction ts as [|t ts IH]; intros acc; simpl; auto.
  rewrite seq_add_neg.
  destruct (seq_add acc t); simpl; auto.
Qed.

Lemma seq_map_map (f g : T -> T) (a : @seq2 T) :
  seq_map f (seq_map g a) = seq_map (fun x => f (g x)) a.
Proof.
  unfold seq_map. rewrite map_map. apply map_ext. intros r.
  apply map_map.
Qed.

Lemma seq_map_ext (f g : T -> T) (a : @seq2 T) :
  (forall x, f x = g x) -> seq_map f a = seq_map g a.
Proof.
  intros H. unfold seq_map. apply map_ext. intros r. now apply map_ext.
Qed.

Lemma seq_map_id (a : @seq2 T) : seq_map (fun x => x) a = a.
Proof.
  unfold seq_map. rewrite (map_ext _ (fun r => r)); [apply map_id|].
  intros r. apply map_id.
Qed.

Lemma py_sum_neg (ts : list (@seq2 T)) :
  py_sum (map (seq_map neg) ts)
  = rmap (option_map (seq_map neg)) (py_sum ts).
Proof.
  destruct ts as [|t ts]; simpl; [reflexivity|].
  rewrite seq_map_map.
  rewrite (seq_map_ext _ (fun x => neg (add (of_int 0) x)))
    by (intros x; ring).
  rewrite <- seq_map_map, fold_seq_add_neg.
  destruct (fold_seq_add (seq_map (add (of_int 0)) t) ts); reflexivity.
Qed.

Lemma vec_add_cancel : forall (x y z : @vec T),
  vec_op add x y = Ok z -> vec_op add z (map neg y) = Ok x.
Proof.
  unfold vec_op.
  induction x as [|a x IH]; intros [|b y] z H; simpl in H;
    try discriminate.
  - now injection H as <-.
  - bind_inv H as zs Hzs. injection H as <-. simpl.
    rewrite (IH _ _ Hzs). simpl. do 2 f_equal. ring.
Qed.

Lemma seq_add_cancel : forall (x y z : @seq2 T),
  seq_add x y = Ok z -> seq_add z (seq_map neg y) = Ok x.
Proof.
  unfold seq_add, seq_op, seq_map.
  induction x as [|a x IH]; intros [|b y] z H; simpl in H;
    try discriminate.
  - now injection H as <-.
  - bind_inv H as r Hr. bind_inv H as zs Hzs. injection H as <-. simpl.
    rewrite (vec_add_cancel _ _ Hr). simpl.
    now rewrite (IH _ _ Hzs).
Qed.

Lemma iadd_cancel (c f : @seq2 T) (s : option (@seq2 T)) :
  iadd c s = Ok f -> iadd f (option_map (seq_map neg) s) = Ok c.
Proof.
  destruct s as [a|]; simpl.
  - apply seq_add_cancel.
  - intros H. injection H as <-. f_equal.
    rewrite seq_map_map.
    rewrite (seq_map_ext _ (fun x => x)) by (intros x; ring).
    apply seq_map_id.
Qed.

(** Adding the terms of the negated blocks to [c0 + sum_k A_k u_k]
    gives back [c0]. *)
Lemma assemble_rhs_cancel (c0 f : @seq2 T) (A : list (@seq3 T))
    (us : list (@seq2 T)) :
  assemble_rhs c0 A us = Ok f ->
  assemble_rhs f (map seq3_neg A) us = Ok c0.
Proof.
  unfold assemble_rhs. intros H.
  bind_inv H as ts Hts. bind_inv H as s Hs.
  rewrite einsum_terms_neg, Hts. simpl.
  rewrite py_sum_neg, Hs. simpl.
  now apply iadd_cancel.
Qed.

Lemma vec_sub_self : forall (x d : @vec T),
  vec_op sub x x = Ok d -> Forall (fun v => v = of_int 0) d.
Proof.
  unfold vec_op. induction x as [|a x IH]; intros d H; simpl in H.
  - injection H as <-. constructor.
  - bind_inv H as zs Hzs. injection H as <-.
    constructor; [ring | now apply IH].
Qed.

Lemma seq_sub_self : forall (x d : @seq2 T),
  seq_sub x x = Ok d ->
  Forall (fun v => v = of_int 0) (concat (seq_map absv d)).
Proof.
  unfold seq_sub, seq_op, seq_map.
  induction x as [|a x IH]; intros d H; simpl in H.
  - injection H as <-. constructor.
  - bind_inv H as r Hr. bind_inv H as zs Hzs. injection H as <-.
    simpl. apply Forall_app. split; [|now apply IH].
    apply vec_sub_self in Hr. apply Forall_forall. intros v Hv.
    apply in_map_iff in Hv. destruct Hv as (w & <- & Hw).
    rewrite Forall_forall in Hr. rewrite (Hr w Hw). apply ex_abs_0.
Qed.

Lemma fold_maximum_zeros : forall (l : list T),
  Forall (fun v => v = of_int 0) l ->
  fold_left maximum l (of_int 0) = of_int 0.
Proof.
  induction l as [|x l IH]; intros H; simpl; [reflexivity|].
  inversion H as [|? ? Hx Hl]; subst.
  rewrite ex_max_idem. now apply IH.
Qed.

(** The error between an estimate and itself is zero. *)
Lemma error_of_self (x d : @seq2 T) (e : T) :
  seq_sub x x = Ok d -> jnp_max (seq_map absv d) = Ok e -> e = of_int 0.
Proof.
  intros Hd He. apply seq_sub_self in Hd. unfold jnp_max in He.
  destruct (concat (seq_map absv d)) as [|v l]; [discriminate|].
  injection He as <-. inversion Hd as [|? ? Hv Hl]; subst.
  now apply fold_maximum_zeros.
Qed.

Lemma tol_bounds :
  gt_lit (of_int (10 ^ 10)) (tol (K:=K)) = true /\
  gt_lit (of_int 0) (tol (K:=K)) = false.
Proof.
  unfold tol. split.
  - apply ex_gt_lit. now destruct (dtype_eqb dtype_of float64).
  - destruct (gt_lit (of_int 0) _) eqn:H; [|reflexivity].
    apply ex_gt_lit in H. now destruct (dtype_eqb dtype_of float64).
Qed.
End ExactFacts.

(** ** Matrix algebra in exact arithmetic *)

Section MatrixFacts.
Context {T : Type} {K : Scalar T} {E : ExactScalar K}.

Add Ring exact_ring' : (ex_ring (K:=K)).

Lemma fold_left_add_init : forall (xs : list T) (x : T),
  fold_left add xs x = add x (sum_list xs).
Proof.
  induction xs as [|y ys IH]; intros x; simpl.
  - ring.
  - rewrite (IH (add x y)), (IH y). ring.
Qed.

Lemma sum_list_cons (x : T) (xs : list T) :
  sum_list (x :: xs) = add x (sum_list xs).
Proof. apply fold_left_add_init. Qed.

Lemma dotp_nil_l (v : @vec T) : dotp [] v = of_int 0.
Proof. reflexivity. Qed.

Lemma dotp_nil_r (r : @vec T) : dotp r [] = of_int 0.
Proof. now destruct r. Qed.

Lemma dotp_cons (g y : T) (r v : @vec T) :
  dotp (g :: r) (y :: v) = add (mul g y) (dotp r v).
Proof. unfold dotp. simpl combine. simpl map. apply sum_list_cons. Qed.

Lemma dotp_add_r : forall (r v w : @vec T),
  length v = length w ->
  dotp r (vaddp v w) = add (dotp r v) (dotp r w).
Proof.
  induction r as [|g r IH]; intros v w H.
  - rewrite !dotp_nil_l. ring.
  - destruct v as [|a v], w as [|b w]; try discriminate.
    + simpl vaddp. rewrite !dotp_nil_r. ring.
    + change (vaddp (a :: v) (b :: w)) with (add a b :: vaddp v w).
      rewrite !dotp_cons, IH by (simpl in H; lia). ring.
Qed.

Lemma dotp_add_l : forall (a b v : @vec T),
  length a = length b ->
  dotp (vaddp a b) v = add (dotp a v) (dotp b v).
Proof.
  induction a as [|x a IH]; intros [|y b] v H; try discriminate.
  - simpl vaddp. rewrite !dotp_nil_l. ring.
  - change (vaddp (x :: a) (y :: b)) with (add x y :: vaddp a b).
    destruct v as [|z v].
    + rewrite !dotp_nil_r. ring.
    + rewrite !dotp_cons, IH by (simpl in H; lia). ring.
Qed.

Lemma dotp_scale_l : forall (p : T) (q v : @vec T),
  dotp (map (mul p) q) v = mul p (dotp q v).
Proof.
  induction q as [|x q IH]; intros v.
  - simpl map. rewrite !dotp_nil_l. ring.
  - destruct v as [|z v].
    + rewrite !dotp_nil_r. ring.
    + simpl map. rewrite !dotp_cons, IH. ring.
Qed.

Lemma dotp_neg_l : forall (q v : @vec T),
  dotp (map neg q) v = neg (dotp q v).
Proof.
  induction q as [|x q IH]; intros v.
  - simpl map. rewrite !dotp_nil_l. ring.
  - destruct v as [|z v].
    + rewrite !dotp_nil_r. ring.
    + simpl map. rewrite !dotp_cons, IH. ring.
Qed.

Lemma dotp_neg_r : forall (q v : @vec T),
  dotp q (map neg v) = neg (dotp q v).
Proof.
  induction q as [|x q IH]; intros v.
  - rewrite !dotp_nil_l. ring.
  - destruct v as [|z v].
    + simpl map. rewrite !dotp_nil_r. ring.
    + simpl map. rewrite !dotp_cons, IH. ring.
Qed.

Lemma dotp_zeros {A : Type} : forall (l : list A) (v : @vec T),
  dotp (map (fun _ => of_int 0) l) v = of_int 0.
Proof.
  induction l as [|x l IH]; intros v; [reflexivity|].
  destruct v as [|z v]; [apply dotp_nil_r|].
  simpl map. rewrite dotp_cons, IH. ring.
Qed.

Lemma mvp_length (m : @mat T) (v : @vec T) : length (mvp m v) = length m.
Proof. apply length_map. Qed.

Lemma mvp_add_r (m : @mat T) (v w : @vec T) :
  length v = length w ->
  mvp m (vaddp v w) = vaddp (mvp m v) (mvp m w).
Proof.
  intros H. unfold mvp. induction m as [|r m IH]; [reflexivity|].
  simpl map. rewrite IH, dotp_add_r by assumption. reflexivity.
Qed.

Lemma mvp_neg_l (m : @mat T) (v : @vec T) :
  mvp (mat_neg m) v = map neg (mvp m v).
Proof.
  unfold mvp, mat_neg. rewrite !map_map. apply map_ext.
  intros r. apply dotp_neg_l.
Qed.

Lemma mvp_neg_r (m : @mat T) (v : @vec T) :
  mvp m (map neg v) = map neg (mvp m v).
Proof.
  unfold mvp. rewrite map_map. apply map_ext.
  intros r. apply dotp_neg_r.
Qed.

Lemma columns_length : forall k (b : @mat T), length (columns k b) = k.
Proof. induction k as [|k IH]; intros b; simpl; auto. Qed.

Lemma columns_cons : forall k (r0 : @vec T) (b : @mat T),
  length r0 = k ->
  columns k (r0 :: b)
  = map (fun xc => fst xc :: snd xc) (combine r0 (columns k b)).
Proof.
  induction k as [|k IH]; intros r0 b H.
  - now destruct r0.
  - destruct r0 as [|x r0]; [discriminate|].
    simpl. f_equal. apply IH. simpl in H. lia.
Qed.

Lemma prow_cons (p0 : T) (p : @vec T) : forall (r0 : @vec T)
    (cols : list (@vec T)),
  map (fun xc => dotp (p0 :: p) (fst xc :: snd xc)) (combine r0 cols)
  = vaddp (map (mul p0) r0) (map (fun c => dotp p c) cols).
Proof.
  induction r0 as [|x r0 IH]; intros [|c cols]; try reflexivity.
  simpl combine. simpl map.
  change (vaddp (mul p0 x :: map (mul p0) r0)
            (dotp p c :: map (fun c0 => dotp p c0) cols))
    with (add (mul p0 x) (dotp p c)
          :: vaddp (map (mul p0) r0) (map (fun c0 => dotp p c0) cols)).
  rewrite dotp_cons, IH. reflexivity.
Qed.

(** One row of [(P Q) v = P (Q v)]. *)
Lemma assoc_row (k : nat) (v : @vec T) : forall (Q : @mat T)
    (p : @vec T),
  length p = length Q -> Forall (fun r => length r = k) Q ->
  dotp (map (fun c => dotp p c) (columns k Q)) v = dotp p (mvp Q v).
Proof.
  induction Q as [|r0 Q IH]; intros p Hp HQ.
  - destruct p; [|discriminate]. simpl mvp. rewrite dotp_nil_l.
    rewrite (map_ext _ (fun _ => of_int 0)) by reflexivity.
    apply dotp_zeros.
  - destruct p as [|p0 p]; [discriminate|].
    inversion HQ as [|? ? Hr0 HQ']; subst.
    rewrite columns_cons by reflexivity. rewrite map_map.
    rewrite prow_cons.
    rewrite dotp_add_l
      by (now rewrite !length_map, columns_length).
    rewrite dotp_scale_l, IH by (auto; simpl in Hp; lia).
    change (mvp (r0 :: Q) v) with (dotp r0 v :: mvp Q v).
    now rewrite dotp_cons.
Qed.

Lemma mvp_assoc (k : nat) (P Q : @mat T) (v : @vec T) :
  Forall (fun row => length row = length Q) P ->
  Forall (fun r => length r = k) Q -> ncols Q = k ->
  mvp (mmp P Q) v = mvp P (mvp Q v).
Proof.
  intros HP HQ Hk. unfold mmp. rewrite Hk.
  unfold mvp at 1. rewrite map_map.
  unfold mvp at 1. apply map_ext_in. intros p Hin.
  rewrite Forall_forall in HP.
  now apply assoc_row; [apply HP|].
Qed.

(** The raising operations on operands of fitting shapes. *)
Lemma zip_strict_total {A B C : Type} (e : exn) (g : A -> B -> C) :
  forall a b, length a = length b ->
    zip_strict e (fun x y => Ok (g x y)) a b
    = Ok (map (fun xy => g (fst xy) (snd xy)) (combine a b)).
Proof.
  induction a as [|x a IH]; intros [|y b] H; try discriminate;
    [reflexivity|].
  simpl. rewrite IH by (simpl in H; lia). reflexivity.
Qed.

Lemma dot_pure (row v : @vec T) :
  length row = length v -> dot row v = Ok (dotp row v).
Proof.
  intros H. unfold dot. now rewrite zip_strict_total.
Qed.

Lemma matvec_pure (m : @mat T) (v : @vec T) :
  Forall (fun r => length r = length v) m -> matvec m v = Ok (mvp m v).
Proof.
  unfold matvec, mvp. induction m as [|r m IH]; intros H; [reflexivity|].
  inversion H; subst. simpl.
  rewrite dot_pure, IH by assumption. reflexivity.
Qed.

Lemma vec_add_pure (a b : @vec T) :
  length a = length b -> vec_add a b = Ok (vaddp a b).
Proof. apply zip_strict_total. Qed.

Lemma columns_rows : forall k (b : @mat T),
  Forall (fun c => length c = length b) (columns k b).
Proof.
  induction k as [|k IH]; intros b; simpl; constructor.
  - apply length_map.
  - specialize (IH (map (@tl T) b)). now rewrite length_map in IH.
Qed.

Lemma matmul_pure (a b : @mat T) :
  Forall (fun row => length row = length b) a ->
  matmul a b = Ok (mmp a b).
Proof.
  unfold matmul, mmp. intros Ha.
  induction a as [|r a IH]; [reflexivity|].
  inversion Ha as [|? ? Hr Ha']; subst. simpl.
  assert (Hrow : forall cols,
            Forall (fun c => length c = length b) cols ->
            mapM (fun c => dot r c) cols
            = Ok (map (fun c => dotp r c) cols)).
  { induction cols as [|c cols IHc]; intros Hc; [reflexivity|].
    inversion Hc; subst. simpl.
    rewrite dot_pure, IHc by (auto; congruence). reflexivity. }
  rewrite Hrow by apply columns_rows.
  simpl. rewrite IH by assumption. reflexivity.
Qed.
End MatrixFacts.

(** ** The backward-Euler inverse-linear operator *)

Section SolveIdaeFacts.
Context {T : Type} {K : Scalar T} {E : ExactScalar K}.
Variable linalg_inv : @mat T -> @mat T.
Variable ny : nat.

Add Ring exact_ring2 : (ex_ring (K:=K)).

Lemma ncols_square (m : @mat T) : square ny m -> ncols m = ny.
Proof.
  intros [Hl Hr]. destruct m as [|r m]; [exact Hl|].
  now inversion Hr.
Qed.

Lemma square_rows (m : @mat T) (n : nat) :
  square ny m -> n = ny -> Forall (fun r => length r = n) m.
Proof. intros [_ Hr] ->. exact Hr. Qed.

Lemma vaddp_length (a b : @vec T) :
  length a = length b -> length (vaddp a b) = length a.
Proof.
  intros H. unfold vaddp. rewrite length_map, length_combine. lia.
Qed.

Lemma vaddp_cancel : forall (u z : @vec T),
  length u = length z -> vaddp (vaddp (map neg u) z) u = z.
Proof.
  induction u as [|a u IH]; intros [|b z] H; try discriminate;
    [reflexivity|].
  simpl in H.
  change (vaddp (vaddp (map neg (a :: u)) (b :: z)) (a :: u))
    with (add (add (neg a) b) a :: vaddp (vaddp (map neg u) z) u).
  rewrite IH by lia. f_equal. ring.
Qed.

(** One step of the recurrence solves one block row of the system. *)
Lemma step_solves (m0 m1 : @mat T) (z prev : @vec T) :
  square ny m0 -> square ny m1 -> length z = ny -> length prev = ny ->
  right_inverse ny m0 (linalg_inv m0) ->
  let y := vaddp (mvp (mat_neg (mmp (linalg_inv m0) m1)) prev)
             (mvp (linalg_inv m0) z) in
  length y = ny /\
  vaddp (mvp m0 y) (mvp m1 prev) = z.
Proof.
  intros H0 H1 Hz Hp [Hsq Hinv] y.
  assert (Hlen : length (mvp (mat_neg (mmp (linalg_inv m0) m1)) prev)
                 = length (mvp (linalg_inv m0) z)).
  { unfold mat_neg, mmp. rewrite !mvp_length, !length_map. reflexivity. }
  assert (Hy : length y = ny).
  { unfold y. rewrite vaddp_length by exact Hlen.
    unfold mat_neg, mmp. rewrite mvp_length, !length_map. apply Hsq. }
  split; [exact Hy|]. unfold y.
  rewrite mvp_add_r by exact Hlen.
  rewrite mvp_neg_l.
  rewrite (mvp_assoc (k:=ny))
    by (try apply ncols_square; try apply H1;
        apply square_rows; auto; apply H1).
  rewrite mvp_neg_r.
  rewrite !Hinv by (rewrite ?mvp_length; auto; apply H1).
  apply vaddp_cancel. rewrite mvp_length. destruct H1. congruence.
Qed.

Lemma solve_tail : forall (m0s m1s : @seq3 T) (zs : @seq2 T)
    (yprev : @vec T),
  length m1s = length m0s -> length zs = length m0s ->
  Forall (square ny) m0s -> Forall (square ny) m1s ->
  Forall (fun r => length r = ny) zs -> length yprev = ny ->
  (forall m, In m m0s -> right_inverse ny m (linalg_inv m)) ->
  exists p b ys,
    einsum_ij_jk (map linalg_inv m0s) m1s = Ok p /\
    einsum_ij_j (map linalg_inv m0s) zs = Ok b /\
    recurrence_from yprev (seq3_neg p) b = Ok ys /\
    length ys = length m0s /\
    forall i, (i < length m0s)%nat ->
      nth i ys []
      = vaddp (mvp (mat_neg (mmp (linalg_inv (nth i m0s []))
                               (nth i m1s [])))
                 (nth i (yprev :: ys) []))
          (mvp (linalg_inv (nth i m0s [])) (nth i zs [])) /\
      vaddp (mvp (nth i m0s []) (nth i ys []))
        (mvp (nth i m1s []) (nth i (yprev :: ys) []))
      = nth i zs [].
Proof.
  induction m0s as [|m0 m0s IH];
    intros [|m1 m1s] [|z zs] yprev Hl1 Hlz H0 H1 Hz Hp Hinv;
    try discriminate.
  - exists [], [], []. do 4 (split; [reflexivity|]).
    intros i Hi. inversion Hi.
  - apply Forall_cons_iff in H0. destruct H0 as [Hm0 H0'].
    apply Forall_cons_iff in H1. destruct H1 as [Hm1 H1'].
    apply Forall_cons_iff in Hz. destruct Hz as [Hz0 Hz'].
    pose proof (Hinv m0 (or_introl eq_refl)) as Hri.
    destruct (@step_solves m0 m1 z yprev Hm0 Hm1 Hz0 Hp Hri)
      as [Hy Hsys].
    remember (vaddp (mvp (mat_neg (mmp (linalg_inv m0) m1)) yprev)
                (mvp (linalg_inv m0) z)) as y eqn:Heqy.
    assert (Hl1' : length m1s = length m0s) by (simpl in Hl1; lia).
    assert (Hlz' : length zs = length m0s) by (simpl in Hlz; lia).
    assert (Hinv' : forall m, In m m0s ->
              right_inverse ny m (linalg_inv m))
      by (intros m Hm; apply Hinv; now right).
    destruct (IH m1s zs y Hl1' Hlz' H0' H1' Hz' Hy Hinv')
      as (p & b & ys & Hp' & Hb' & Hrec & Hlen & Hi).
    destruct Hri as [Hsq _].
    exists (mmp (linalg_inv m0) m1 :: p),
           (mvp (linalg_inv m0) z :: b), (y :: ys).
    assert (Hmm : matmul (linalg_inv m0) m1
                  = Ok (mmp (linalg_inv m0) m1)).
    { apply matmul_pure. apply square_rows; [exact Hsq|].
      exact (proj1 Hm1). }
    assert (Hmv : matvec (linalg_inv m0) z = Ok (mvp (linalg_inv m0) z)).
    { apply matvec_pure. apply square_rows; [exact Hsq | auto]. }
    assert (Hay : matvec (mat_neg (mmp (linalg_inv m0) m1)) yprev
                  = Ok (mvp (mat_neg (mmp (linalg_inv m0) m1)) yprev)).
    { apply matvec_pure. unfold mat_neg, mmp.
      apply Forall_forall. intros r Hr.
      apply in_map_iff in Hr. destruct Hr as (r' & <- & Hr').
      apply in_map_iff in Hr'. destruct Hr' as (r'' & <- & _).
      rewrite !length_map, columns_length, Hp.
      now apply ncols_square. }
    assert (Hadd : vec_add (mvp (mat_neg (mmp (linalg_inv m0) m1)) yprev)
                     (mvp (linalg_inv m0) z) = Ok y).
    { rewrite Heqy. apply vec_add_pure. unfold mat_neg, mmp.
      now rewrite !mvp_length, !length_map. }
    split; [|split; [|split; [|split]]].
    + unfold einsum_ij_jk in *. simpl. rewrite Hmm. simpl.
      now rewrite Hp'.
    + unfold einsum_ij_j in *. simpl. rewrite Hmv. simpl.
      now rewrite Hb'.
    + cbn [recurrence_from seq3_neg map].
      change (map (map neg) (mmp (linalg_inv m0) m1))
        with (mat_neg (mmp (linalg_inv m0) m1)).
      rewrite Hay. cbn [bind]. rewrite Hadd. cbn [bind].
      unfold seq3_neg in Hrec. now rewrite Hrec.
    + simpl. now rewrite Hlen.
    + intros i Hlt. destruct i as [|i].
      * split; [exact Heqy | exact Hsys].
      * simpl. apply Hi. simpl in Hlt. lia.
Qed.

(** C7: on [ny x ny] blocks with [linalg_inv] inverting every [M0_i],
    [i >= 1], the operator returns the base case [y0] as first sample
    and, for every [i >= 1], the sample
    [y_i = A_i y_(i-1) + b_i] with [A_i = - inv(M0_i) M1_i] and
    [b_i = inv(M0_i) z_i], which satisfies
    [M0_i y_i + M1_i y_(i-1) = z_i]. *)
Theorem solve_idae_inv_lin_solves (M0 M1 : @seq3 T) (z : @seq2 T)
    (y0 : @vec T) :
  length M1 = length M0 -> length z = length M0 ->
  Forall (square ny) M0 -> Forall (square ny) M1 ->
  Forall (fun r => length r = ny) z -> length y0 = ny ->
  (forall i, (1 <= i < length M0)%nat ->
     right_inverse ny (nth i M0 []) (linalg_inv (nth i M0 []))) ->
  exists y,
    solve_idae_inv_lin linalg_inv [M0; M1] z [y0] = Ok y /\
    nth 0 y [] = y0 /\
    length y = Nat.max 1 (length M0) /\
    forall i, (1 <= i < length M0)%nat ->
      nth i y []
      = vaddp (mvp (mat_neg (mmp (linalg_inv (nth i M0 []))
                               (nth i M1 [])))
                 (nth (i - 1) y []))
          (mvp (linalg_inv (nth i M0 [])) (nth i z [])) /\
      vaddp (mvp (nth i M0 []) (nth i y []))
        (mvp (nth i M1 []) (nth (i - 1) y []))
      = nth i z [].
Proof.
  intros Hl1 Hlz H0 H1 Hz Hy0 Hinv.
  assert (Htl : forall {A : Type} (l : list A) (P : A -> Prop),
            Forall P l -> Forall P (tl l)).
  { intros A l P H. destruct l; [constructor | now inversion H]. }
  assert (Hnth : forall {A : Type} (l : list A) (d : A) i,
            nth i (tl l) d = nth (S i) l d).
  { intros A l d i. destruct l; [now destruct i | reflexivity]. }
  assert (Hlen : forall {A : Type} (l : list A),
            length (tl l) = (length l - 1)%nat).
  { intros A l. destruct l; simpl; lia. }
  destruct (@solve_tail (tl M0) (tl M1) (tl z) y0)
    as (p & b & ys & Hp & Hb & Hrec & Hlys & Hi); auto.
  - rewrite !Hlen. lia.
  - rewrite !Hlen. lia.
  - intros m Hm. destruct (In_nth _ _ [] Hm) as (i & Hlt & <-).
    rewrite Hnth. apply Hinv. rewrite Hlen in Hlt. lia.
  - exists (y0 :: ys). split; [|split; [|split]].
    + unfold solve_idae_inv_lin. rewrite Hp. simpl. rewrite Hb. simpl.
      unfold matmul_recursive. now rewrite Hrec.
    + reflexivity.
    + simpl. rewrite Hlys, Hlen.
      destruct (length M0); simpl; lia.
    + intros i Hlt. destruct i as [|i]; [lia|].
      destruct (Hi i) as [Hrecur Hsys]; [rewrite Hlen; lia|].
      rewrite !Hnth in Hrecur, Hsys.
      replace (S i - 1)%nat with i by lia.
      split; [exact Hrecur | exact Hsys].
Qed.
End SolveIdaeFacts.

(** ** The iteration *)

Section DeerFacts.
Context {T : Type} {K : Scalar T}.
Variables X P IP SP : Type.
Variable inv_lin : list (@seq3 T) -> @seq2 T -> IP -> result (@seq2 T).
Variable func2 : list (@seq2 T) -> X -> P -> result (@seq2 T).
Variable jacfunc : list (@seq2 T) -> X -> P -> result (list (@seq3 T)).
Variable shifter_func : @seq2 T -> SP -> result (list (@seq2 T)).
Variable p_num : Z.
Variable params : P.
Variable xinput : X.
Variable inv_lin_params : IP.
Variable shifter_func_params : SP.

Local Abbreviation iter_func' clip :=
  (iter_func inv_lin func2 jacfunc shifter_func params xinput
     inv_lin_params shifter_func_params clip).
Local Abbreviation deer_trace' y clip :=
  (deer_trace inv_lin func2 jacfunc shifter_func p_num params xinput
     inv_lin_params shifter_func_params y clip).
Local Abbreviation deer_run' y m clip fuel :=
  (while_run fuel (cond_func m) (iter_func' clip) (init_carry p_num y)).
Local Abbreviation deer_loop' y m clip :=
  (deer_loop inv_lin func2 jacfunc shifter_func p_num params xinput
     inv_lin_params shifter_func_params y m clip).
Local Abbreviation deer_iteration_helper' y m clip :=
  (deer_iteration_helper inv_lin func2 jacfunc shifter_func p_num params
     xinput inv_lin_params shifter_func_params y m clip).
Local Abbreviation deer_iteration' y m clip :=
  (deer_iteration inv_lin func2 jacfunc shifter_func p_num params
     xinput inv_lin_params shifter_func_params y m clip).

(** What one successful execution of the body computed. *)
Lemma iter_func_inv (clip : bool) (c c' : carry) :
  iter_func' clip c = Ok c' ->
  exists ytparams jacs f rhs y d,
    shifter_func (c_yt c) shifter_func_params = Ok ytparams /\
    jacfunc ytparams xinput params = Ok jacs /\
    func2 ytparams xinput params = Ok f /\
    assemble_rhs f (map seq3_neg jacs) ytparams = Ok rhs /\
    inv_lin (map seq3_neg jacs) rhs inv_lin_params = Ok y /\
    seq_sub (clip_guard clip y) (c_yt c) = Ok d /\
    jnp_max (seq_map absv d) = Ok (c_err c') /\
    c_yt c' = clip_guard clip y /\
    c_gts c' = map seq3_neg jacs /\
    c_iter c' = wrap32 (c_iter c + 1).
Proof.
  destruct c as [[[err yt] gt_] iiter]. unfold iter_func. intros H.
  bind_inv H as us Hus. bind_inv H as jacs Hjacs. bind_inv H as f Hf.
  bind_inv H as rhs Hrhs. bind_inv H as y Hy. bind_inv H as d Hd.
  bind_inv H as e He. injection H as <-.
  exists us, jacs, f, rhs, y, d. simpl. repeat split; assumption.
Qed.


Lemma wrap32_small (z : Z) :
  - 2 ^ 31 <= z <= int32_max -> wrap32 z = z.
Proof.
  unfold wrap32, int32_max. intros H.
  rewrite Z.mod_small; lia.
Qed.

(** Below the [int32] range the counter counts the executions. *)
Lemma iterate_counter (clip : bool) : forall n c c',
  iterate (iter_func' clip) n c = Ok c' ->
  0 <= c_iter c -> c_iter c + Z.of_nat n <= int32_max ->
  c_iter c' = c_iter c + Z.of_nat n.
Proof.
  induction n as [|n IH]; intros c c' H H0 Hmax.
  - simpl in H. injection H as <-. lia.
  - simpl in H. destruct (iter_func' clip c) as [c1|e] eqn:Hb;
      [|discriminate]. simpl in H.
    destruct (iter_func_inv _ _ Hb)
      as (? & ? & ? & ? & ? & ? & _ & _ & _ & _ & _ & _ & _ & _ & _ & Hi).
    rewrite wrap32_small in Hi by (unfold int32_max in *; lia).
    rewrite (IH _ _ H); lia.
Qed.

Lemma cond_func_eq (max_iter : Z) (c : carry) :
  cond_func max_iter c
  = andb (gt_lit (c_err c) tol) (c_iter c <? wrap32 max_iter).
Proof. now destruct c as [[[e y] g] i]. Qed.

(** For a budget within [int32] the comparison is with the budget
    itself. *)
Lemma cond_func_int32 (max_iter : Z) (c : carry) :
  - 2 ^ 31 <= max_iter <= int32_max ->
  cond_func max_iter c
  = andb (gt_lit (c_err c) tol) (c_iter c <? max_iter).
Proof. intros H. now rewrite cond_func_eq, wrap32_small. Qed.

Lemma cond_func_init (y : seq2) (max_iter : Z) :
  gt_lit (of_int (10 ^ 10)) tol = true ->
  1 <= max_iter <= int32_max ->
  cond_func max_iter (init_carry p_num y) = true.
Proof.
  intros Hbig Hm.
  rewrite cond_func_int32 by (unfold int32_max in *; lia).
  change (andb (gt_lit (of_int (10 ^ 10)) tol) (0 <? max_iter) = true).
  rewrite Hbig. apply Z.ltb_lt. lia.
Qed.

(** The check [jax.lax.while_loop] makes, by what the body returns
    for the initial carry. *)
Lemma deer_trace_raise (y : seq2) (clip : bool) (e : exn) :
  iter_func' clip (init_carry p_num y) = Raise e ->
  deer_trace' y clip = Raise e.
Proof. apply trace_check_raise. Qed.

Lemma deer_trace_ok (y : seq2) (clip : bool) (c1 : carry) :
  iter_func' clip (init_carry p_num y) = Ok c1 ->
  deer_trace' y clip
  = if same_carry_type (init_carry p_num y) c1 then Ok tt
    else Raise TypeError.
Proof. apply trace_check_ok. Qed.



(** The call, the helper and the iteration, from the loop as it
    runs. *)
Lemma results_of_run (y : seq2) (m : Z) (clip : bool) (fuel : nat)
    (c : carry) :
  deer_run' y m clip fuel = Some (Ok c) ->
  deer_loop' y m clip fuel
    = Some (after_check (deer_trace' y clip) (Ok c)) /\
  deer_iteration_helper' y m clip fuel
    = Some (after_check (deer_trace' y clip) (Ok (c_yt c, c_gts c))) /\
  deer_iteration' y m clip fuel
    = Some (after_check (deer_trace' y clip) (Ok (c_yt c))).
Proof.
  intros H.
  assert (Hl : deer_loop' y m clip fuel
               = Some (after_check (deer_trace' y clip) (Ok c)))
    by (unfold deer_loop, deer_trace; now apply while_loop_of_run).
  split; [exact Hl|].
  unfold deer_iteration, deer_iteration_helper. rewrite Hl.
  unfold after_check. destruct (deer_trace' y clip) as [[]|e];
    destruct c as [[[e0 yt] g] i]; split; reflexivity.
Qed.

Lemma deer_loop_ok (y : seq2) (m : Z) (clip : bool) (fuel : nat)
    (c : carry) :
  deer_loop' y m clip fuel = Some (Ok c) ->
  deer_trace' y clip = Ok tt /\ deer_run' y m clip fuel = Some (Ok c).
Proof. unfold deer_loop, deer_trace. apply while_loop_ok. Qed.

(** What the helper and the iteration return is what the loop
    returned. *)
Lemma helper_ok_inv (y : seq2) (m : Z) (clip : bool) (fuel : nat)
    (yt : seq2) (gts : list seq3) :
  deer_iteration_helper' y m clip fuel = Some (Ok (yt, gts)) ->
  exists c, deer_loop' y m clip fuel = Some (Ok c) /\
            c_yt c = yt /\ c_gts c = gts.
Proof.
  unfold deer_iteration_helper.
  destruct (deer_loop' y m clip fuel) as [[c|e]|]; try discriminate.
  destruct c as [[[e0 yt0] g] i]. simpl. intros H.
  injection H as <- <-. eexists. split; [reflexivity|]. auto.
Qed.

Lemma iteration_ok_inv (y : seq2) (m : Z) (clip : bool) (fuel : nat)
    (yt : seq2) :
  deer_iteration' y m clip fuel = Some (Ok yt) ->
  exists c, deer_loop' y m clip fuel = Some (Ok c) /\ c_yt c = yt.
Proof.
  unfold deer_iteration.
  destruct (deer_iteration_helper' y m clip fuel) as [[[yt0 g]|e]|] eqn:Hh;
    try discriminate.
  simpl. intros H. injection H as <-.
  destruct (helper_ok_inv _ _ _ _ Hh) as (c & Hl & Hy & _). eauto.
Qed.


(** While the budget fits [int32], the counter of a finished loop is
    the number of executions of the body. *)
Lemma run_counter (y : seq2) (max_iter : Z) (clip : bool) (fuel : nat)
    (c : carry) :
  - 2 ^ 31 <= max_iter <= int32_max ->
  deer_run' y max_iter clip fuel = Some (Ok c) ->
  exists n,
    iterate (iter_func' clip) n (init_carry p_num y) = Ok c /\
    c_iter c = Z.of_nat n /\
    forall k, (k < n)%nat ->
      exists ck, iterate (iter_func' clip) k (init_carry p_num y) = Ok ck
                 /\ cond_func max_iter ck = true.
Proof.
  intros Hm H.
  destruct (while_run_trace _ _ _ _ H) as (n & _ & Hit & Hk).
  exists n. split; [exact Hit|]. split; [|exact Hk].
  assert (Hcnt : forall k ck, (k <= n)%nat ->
            iterate (iter_func' clip) k (init_carry p_num y) = Ok ck ->
            c_iter ck = Z.of_nat k).
  { induction k as [|k IH]; intros ck Hle Hck.
    - simpl in Hck. now injection Hck as <-.
    - destruct (iterate_prefix _ _ _ Hck) as (cp & Hcp & Hb).
      destruct (Hk k) as (cp' & Hcp' & Hc); [lia|].
      rewrite Hcp in Hcp'. injection Hcp' as <-.
      rewrite cond_func_int32 in Hc by exact Hm.
      apply andb_true_iff in Hc.
      destruct Hc as [_ Hlt]. apply Z.ltb_lt in Hlt.
      rewrite (IH cp) in Hlt by (auto; lia).
      destruct (iter_func_inv _ _ Hb)
        as (? & ? & ? & ? & ? & ? & _ & _ & _ & _ & _ & _ & _ & _ & _
            & Hi).
      rewrite Hi, (IH cp) by (auto; lia).
      rewrite wrap32_small; unfold int32_max in *; lia. }
  now apply Hcnt with (k := n).
Qed.

(** C10 (amended): with [max_iter = 0] no iteration is run, but
    [jax.lax.while_loop] still evaluates the body once on the initial
    carry.  When that evaluation raises, [deer_iteration] raises the
    same exception; when it returns a carry of another type than the
    initial one, [deer_iteration] raises [TypeError]; otherwise
    [deer_iteration] returns [yinit_guess] unchanged and the helper
    keeps the initial all-zero Jacobian bundle of [p_num] blocks. *)
Theorem max_iter_zero_returns_guess (yinit_guess : seq2) (clip : bool)
    (fuel : nat) :
  (forall e,
     iter_func' clip (init_carry p_num yinit_guess) = Raise e ->
     deer_iteration' yinit_guess 0 clip (S fuel) = Some (Raise e)) /\
  (forall c1,
     iter_func' clip (init_carry p_num yinit_guess) = Ok c1 ->
     same_carry_type (init_carry p_num yinit_guess) c1 = false ->
     deer_iteration' yinit_guess 0 clip (S fuel)
       = Some (Raise TypeError)) /\
  (forall c1,
     iter_func' clip (init_carry p_num yinit_guess) = Ok c1 ->
     same_carry_type (init_carry p_num yinit_guess) c1 = true ->
     deer_loop' yinit_guess 0 clip (S fuel)
       = Some (Ok (init_carry p_num yinit_guess)) /\
     deer_iteration_helper' yinit_guess 0 clip (S fuel)
       = Some (Ok (yinit_guess,
                   repeat (zeros_square_like yinit_guess)
                     (Z.to_nat p_num))) /\
     deer_iteration' yinit_guess 0 clip (S fuel)
       = Some (Ok yinit_guess) /\
     c_iter (init_carry p_num yinit_guess) = 0).
Proof.
  assert (Hrun : deer_run' yinit_guess 0 clip (S fuel)
                 = Some (Ok (init_carry p_num yinit_guess))).
  { cbn [while_run]. rewrite cond_func_eq.
    replace (c_iter (init_carry p_num yinit_guess) <? wrap32 0)
      with false by reflexivity.
    now rewrite andb_false_r. }
  destruct (results_of_run _ _ _ _ Hrun) as (Hl & Hh & Hi).
  split; [|split].
  - intros e He. rewrite Hi, (deer_trace_raise _ _ He). reflexivity.
  - intros c1 H1 Hs. rewrite Hi, (deer_trace_ok _ _ H1), Hs.
    reflexivity.
  - intros c1 H1 Hs. rewrite Hl, Hh, Hi, (deer_trace_ok _ _ H1), Hs.
    repeat split.
Qed.

(** C2 (amended): for a budget within [int32] the body is executed
    only from states with [err > tol] and [iiter < max_iter]; and when
    every execution reports an error above the tolerance (the test
    [err > tol] holds, which a not-a-number error fails), the loop runs
    the body exactly [max_iter] times and then returns the last
    estimate, as an ordinary result once [jax.lax.while_loop] has
    accepted the body. *)
Theorem budget_respected (yinit_guess : seq2) (max_iter : Z)
    (clip : bool) :
  - 2 ^ 31 <= max_iter <= int32_max ->
  (forall fuel c,
     deer_loop' yinit_guess max_iter clip fuel = Some (Ok c) ->
     exists n,
       iterate (iter_func' clip) n (init_carry p_num yinit_guess) = Ok c /\
       (forall k, (k < n)%nat ->
          exists ck,
            iterate (iter_func' clip) k (init_carry p_num yinit_guess)
              = Ok ck /\
            gt_lit (c_err ck) tol = true /\ c_iter ck < max_iter) /\
       andb (gt_lit (c_err c) tol) (c_iter c <? max_iter) = false) /\
  (0 <= max_iter ->
   (forall k, (k <= Z.to_nat max_iter)%nat ->
      exists ck,
        iterate (iter_func' clip) k (init_carry p_num yinit_guess)
          = Ok ck /\
        ((k < Z.to_nat max_iter)%nat -> gt_lit (c_err ck) tol = true)) ->
   forall fuel, (Z.to_nat max_iter < fuel)%nat ->
     exists c,
       iterate (iter_func' clip) (Z.to_nat max_iter)
         (init_carry p_num yinit_guess) = Ok c /\
       c_iter c = max_iter /\
       deer_loop' yinit_guess max_iter clip fuel
         = Some (after_check (deer_trace' yinit_guess clip) (Ok c)) /\
       deer_iteration_helper' yinit_guess max_iter clip fuel
         = Some (after_check (deer_trace' yinit_guess clip)
                   (Ok (c_yt c, c_gts c))) /\
       deer_iteration' yinit_guess max_iter clip fuel
         = Some (after_check (deer_trace' yinit_guess clip)
                   (Ok (c_yt c)))).
Proof.
  intros Hr. split.
  - intros fuel c H. apply deer_loop_ok in H. destruct H as [_ H].
    pose proof (while_run_exit _ _ _ _ H) as Hex.
    destruct (while_run_trace _ _ _ _ H) as (n & _ & Hit & Hk).
    exists n. split; [exact Hit|]. split.
    + intros k Hlt. destruct (Hk k Hlt) as (ck & Hck & Hc).
      exists ck. rewrite cond_func_int32 in Hc by exact Hr.
      apply andb_true_iff in Hc. destruct Hc as [Hg Hi].
      repeat split; auto. now apply Z.ltb_lt.
    + now rewrite <- cond_func_int32.
  - intros Hm Hnc fuel Hf.
    destruct (Hnc (Z.to_nat max_iter)) as (c & Hc & _); [lia|].
    assert (Hcnt : forall k ck, (k <= Z.to_nat max_iter)%nat ->
              iterate (iter_func' clip) k (init_carry p_num yinit_guess)
                = Ok ck -> c_iter ck = Z.of_nat k).
    { intros k ck Hk Hit.
      rewrite (iterate_counter _ _ _ Hit); simpl; lia. }
    assert (Hrun : deer_run' yinit_guess max_iter clip fuel
                   = Some (Ok c)).
    { apply while_run_run with (n := Z.to_nat max_iter); auto.
      - intros k Hk. destruct (Hnc k) as (ck & Hck & Hg); [lia|].
        exists ck. split; auto.
        rewrite cond_func_int32, (Hg Hk) by exact Hr.
        rewrite (Hcnt k ck) by (auto; lia). simpl.
        apply Z.ltb_lt. lia.
      - rewrite cond_func_int32, (Hcnt _ c (le_n _) Hc) by exact Hr.
        replace (Z.of_nat (Z.to_nat max_iter) <? max_iter) with false;
          [apply andb_false_r|].
        symmetry. apply Z.ltb_ge. lia. }
    exists c. split; [exact Hc|].
    split; [rewrite (Hcnt _ c (le_n _) Hc); lia|].
    now apply results_of_run.
Qed.


(** C6: an execution of the body evaluates [func] and its Jacobians at
    the current shift set; the bundle it returns and hands to [inv_lin]
    is the negated Jacobians, and every entry of the right-hand side
    handed to [inv_lin] is that of [func] plus the sum over [k] of
    (bundle block [k] applied to shifted sequence [k]). *)
Theorem jacobian_bundle_and_rhs (clip : bool) (c c' : carry) :
  iter_func' clip c = Ok c' ->
  exists ytparams jacs f rhs y,
    shifter_func (c_yt c) shifter_func_params = Ok ytparams /\
    jacfunc ytparams xinput params = Ok jacs /\
    func2 ytparams xinput params = Ok f /\
    c_gts c' = map seq3_neg jacs /\
    inv_lin (c_gts c') rhs inv_lin_params = Ok y /\
    c_yt c' = clip_guard clip y /\
    (length jacs = length ytparams ->
     same_shape f rhs /\
     forall i a, (i < length f)%nat -> (a < length (nth i f []))%nat ->
       entry rhs i a = taylor_rhs f (c_gts c') ytparams i a).
Proof.
  intros H.
  destruct (iter_func_inv _ _ H)
    as (us & jacs & f & rhs & y & d & Hus & Hjacs & Hf & Hrhs & Hy & _
        & _ & Hyt & Hg & _).
  exists us, jacs, f, rhs, y. rewrite Hg.
  repeat split; auto;
    destruct (assemble_rhs_entry _ _ _ Hrhs) as [Hsh He];
    try (now rewrite length_map); try apply Hsh; auto.
Qed.

(** C4: the tolerance follows the working dtype ([1e-4] in single,
    [1e-7] in double precision) and is the threshold of the loop: a
    loop that stopped with an error above the tolerance stopped because
    the budget was spent, and the loop stops at the first execution
    whose error is not above the tolerance. *)
Theorem tolerance_selection (yinit_guess : seq2) (max_iter : Z)
    (clip : bool) :
  (dtype_of = float32 -> tol = 1 # 10000) /\
  (dtype_of = float64 -> tol = 1 # 10000000) /\
  (forall fuel c,
     - 2 ^ 31 <= max_iter <= int32_max ->
     deer_loop' yinit_guess max_iter clip fuel = Some (Ok c) ->
     gt_lit (c_err c) tol = true -> max_iter <= c_iter c) /\
  (forall n c fuel,
     iterate (iter_func' clip) n (init_carry p_num yinit_guess) = Ok c ->
     (forall k, (k < n)%nat ->
        exists ck,
          iterate (iter_func' clip) k (init_carry p_num yinit_guess)
            = Ok ck /\
          cond_func max_iter ck = true) ->
     gt_lit (c_err c) tol = false -> (n < fuel)%nat ->
     deer_loop' yinit_guess max_iter clip fuel
       = Some (after_check (deer_trace' yinit_guess clip) (Ok c)) /\
     deer_iteration' yinit_guess max_iter clip fuel
       = Some (after_check (deer_trace' yinit_guess clip)
                 (Ok (c_yt c)))).
Proof.
  unfold tol at 1 2. split; [|split; [|split]].
  - now intros ->.
  - now intros ->.
  - intros fuel c Hr H Hg. apply deer_loop_ok in H. destruct H as [_ H].
    apply while_run_exit in H. rewrite cond_func_int32 in H by exact Hr.
    rewrite Hg in H. simpl in H. now apply Z.ltb_ge.
  - intros n c fuel Hit Hk Hg Hf.
    assert (Hrun : deer_run' yinit_guess max_iter clip fuel
                   = Some (Ok c)).
    { apply while_run_run with (n := n); auto.
      rewrite cond_func_eq, Hg. reflexivity. }
    destruct (results_of_run _ _ _ _ Hrun) as (Hl & _ & Hi). auto.
Qed.
End DeerFacts.

(** ** The differentiation rule *)

Section JvpFacts.
Context {T : Type} {K : Scalar T}.
Variables X P IP SP : Type.
Variable inv_lin : list (@seq3 T) -> @seq2 T -> IP -> result (@seq2 T).
Variable func2 : list (@seq2 T) -> X -> P -> result (@seq2 T).
Variable jacfunc : list (@seq2 T) -> X -> P -> result (list (@seq3 T)).
Variable shifter_func : @seq2 T -> SP -> result (list (@seq2 T)).
Variable func2_jvp :
  list (@seq2 T) -> X * P -> X * P -> result (@seq2 T * @seq2 T).
Variable inv_lin_jvp :
  list (@seq3 T) -> @seq2 T * IP -> @seq2 T * IP
  -> result (@seq2 T * @seq2 T).
Variables p_num max_iter : Z.
Variable clip : bool.

Local Abbreviation jvp' :=
  (deer_iteration_jvp inv_lin func2 jacfunc shifter_func func2_jvp
     inv_lin_jvp p_num max_iter clip).

(** What a successful call of the rule computed. *)
Lemma jvp_rule_inv (params : P) (xinput : X) (ilp : IP) (sp : SP)
    (yinit : @seq2 T) (gp : P) (gx : X) (gilp : IP) (gsp : SP)
    (gy : @seq2 T) (fuel : nat) (y dy : @seq2 T) :
  jvp' (params, xinput, ilp, sp, yinit) (gp, gx, gilp, gsp, gy) fuel
    = Some (Ok (y, dy)) ->
  exists gts ytparams p1 df rhs0 p2,
    deer_iteration_helper inv_lin func2 jacfunc shifter_func p_num
      params xinput ilp sp yinit max_iter clip fuel
      = Some (Ok (y, gts)) /\
    shifter_func y sp = Ok ytparams /\
    func2_jvp ytparams (xinput, params) (gx, gp) = Ok (p1, df) /\
    rhs0_of gts = Ok rhs0 /\
    inv_lin_jvp gts (rhs0, ilp) (df, gilp) = Ok (p2, dy).
Proof.
  unfold deer_iteration_jvp.
  destruct (deer_iteration_helper inv_lin func2 jacfunc shifter_func
              p_num params xinput ilp sp yinit max_iter clip fuel)
    as [[[yt gts]|e]|]; try discriminate.
  intros H. injection H as H. cbn [bind] in H.
  bind_inv H as us Hus. bind_inv H as df Hdf.
  bind_inv H as rhs0 Hrhs0. bind_inv H as r Hr.
  injection H as <- <-.
  exists gts, us, (fst df), (snd df), rhs0, (fst r).
  now rewrite <- !surjective_pairing.
Qed.

(** X14: a successful call of the rule returns the output of the loop
    as primal output and, as tangent, the tangent of [inv_lin] (at the
    returned Jacobian bundle and a zero right-hand side) in the
    direction [(df, grad_inv_lin_params)], [df] being the tangent of
    [func2] at the shift set of the output in the direction
    [(grad_xinput, grad_params)]; the result is the same whatever
    tangents are supplied for [shifter_func_params] and
    [yinit_guess]. *)
Theorem rule_returns_loop_output (params : P) (xinput : X) (ilp : IP)
    (sp : SP) (yinit : @seq2 T) (gp : P) (gx : X) (gilp : IP) (gsp : SP)
    (gy : @seq2 T) (fuel : nat) (y dy : @seq2 T) :
  jvp' (params, xinput, ilp, sp, yinit) (gp, gx, gilp, gsp, gy) fuel
    = Some (Ok (y, dy)) ->
  deer_iteration inv_lin func2 jacfunc shifter_func p_num params xinput
    ilp sp yinit max_iter clip fuel = Some (Ok y) /\
  (exists gts ytparams p1 df rhs0 p2,
     deer_iteration_helper inv_lin func2 jacfunc shifter_func p_num
       params xinput ilp sp yinit max_iter clip fuel
       = Some (Ok (y, gts)) /\
     shifter_func y sp = Ok ytparams /\
     func2_jvp ytparams (xinput, params) (gx, gp) = Ok (p1, df) /\
     rhs0_of gts = Ok rhs0 /\
     inv_lin_jvp gts (rhs0, ilp) (df, gilp) = Ok (p2, dy)) /\
  (forall (gsp' : SP) (gy' : @seq2 T),
     jvp' (params, xinput, ilp, sp, yinit) (gp, gx, gilp, gsp', gy')
       fuel = Some (Ok (y, dy))).
Proof.
  intros H. split; [|split].
  - destruct (jvp_rule_inv _ _ _ _ _ _ _ _ _ _ _ H)
      as (gts & _ & _ & _ & _ & _ & Hh & _).
    unfold deer_iteration. now rewrite Hh.
  - exact (jvp_rule_inv _ _ _ _ _ _ _ _ _ _ _ H).
  - intros gsp' gy'. exact H.
Qed.
End JvpFacts.

(** ** Affine [func] in exact arithmetic *)

Section Affine.
Context {T : Type} {K : Scalar T} {E : ExactScalar K}.
Variables X P IP SP : Type.
Variable inv_lin : list (@seq3 T) -> @seq2 T -> IP -> result (@seq2 T).
Variable func2 : list (@seq2 T) -> X -> P -> result (@seq2 T).
Variable jacfunc : list (@seq2 T) -> X -> P -> result (list (@seq3 T)).
Variable shifter_func : @seq2 T -> SP -> result (list (@seq2 T)).
Variable p_num : Z.
Variable params : P.
Variable xinput : X.
Variable inv_lin_params : IP.
Variable shifter_func_params : SP.
Variable clip : bool.
Variable c0 : @seq2 T.
Variable A : list (@seq3 T).

Local Abbreviation iter_func' :=
  (iter_func inv_lin func2 jacfunc shifter_func params xinput
     inv_lin_params shifter_func_params clip).
Local Abbreviation affine_at' :=
  (affine_at func2 jacfunc shifter_func c0 A params xinput
     shifter_func_params).

(** Where [func] is affine, the next estimate is [inv_lin] of the
    negated blocks and the constant part, whatever the estimate. *)
Lemma iter_func_affine (c c' : carry) :
  affine_at' (c_yt c) ->
  iter_func' c = Ok c' ->
  exists ystar d,
    inv_lin (map seq3_neg A) c0 inv_lin_params = Ok ystar /\
    c_yt c' = clip_guard clip ystar /\
    c_gts c' = map seq3_neg A /\
    seq_sub (c_yt c') (c_yt c) = Ok d /\
    jnp_max (seq_map absv d) = Ok (c_err c') /\
    c_iter c' = wrap32 (c_iter c + 1).
Proof.
  intros Haff H.
  destruct (iter_func_inv _ _ _ _ _ _ _ _ _ _ H)
    as (us & jacs & f & rhs & y & d & Hus & Hjacs & Hf & Hrhs & Hy & Hd
        & He & Hyt & Hg & Hi).
  destruct (Haff us Hus) as [HA Hf'].
  rewrite HA in Hjacs. injection Hjacs as <-.
  rewrite Hf' in Hf. apply assemble_rhs_cancel in Hf.
  rewrite Hf in Hrhs. injection Hrhs as <-.
  exists y, d. rewrite Hyt. repeat split; auto.
Qed.

Local Abbreviation deer_trace' y :=
  (deer_trace inv_lin func2 jacfunc shifter_func p_num params xinput
     inv_lin_params shifter_func_params y clip).

(** The loop as it runs on an affine [func]. *)
Lemma affine_run (yinit_guess : @seq2 T) (max_iter : Z)
    (fuel : nat) (c1 c2 : carry) :
  2 <= max_iter <= int32_max -> (2 < fuel)%nat ->
  affine_at' yinit_guess -> affine_at' (c_yt c1) ->
  iter_func' (init_carry p_num yinit_guess) = Ok c1 ->
  iter_func' c1 = Ok c2 ->
  exists ystar,
    inv_lin (map seq3_neg A) c0 inv_lin_params = Ok ystar /\
    c_yt c1 = clip_guard clip ystar /\
    c_yt c2 = c_yt c1 /\ c_err c2 = of_int 0 /\
    c_iter c1 = 1 /\ c_iter c2 = 2 /\
    c_gts c1 = map seq3_neg A /\ c_gts c2 = map seq3_neg A /\
    while_run fuel (cond_func max_iter) iter_func'
      (init_carry p_num yinit_guess)
    = Some (Ok (if gt_lit (c_err c1) tol then c2 else c1)).
Proof.
  intros Hm Hfuel Haff0 Haff1 H1 H2.
  destruct (iter_func_affine (init_carry p_num yinit_guess) Haff0 H1)
    as (ystar & d1 & Hinv & Hyt1 & Hg1 & _ & _ & Hi1).
  destruct (iter_func_affine c1 Haff1 H2)
    as (ystar' & d2 & Hinv' & Hyt2 & Hg2 & Hd2 & He2 & Hi2).
  rewrite Hinv in Hinv'. injection Hinv' as <-.
  assert (Hsame : c_yt c2 = c_yt c1) by congruence.
  rewrite Hsame in Hd2.
  pose proof (error_of_self _ Hd2 He2) as Herr.
  simpl in Hi1. rewrite wrap32_small in Hi1 by (unfold int32_max; lia).
  rewrite Hi1, wrap32_small in Hi2 by (unfold int32_max; lia).
  destruct tol_bounds as [Hbig Hzero].
  assert (Hr : - 2 ^ 31 <= max_iter <= int32_max)
    by (unfold int32_max in *; lia).
  assert (Hc0 : cond_func max_iter (init_carry p_num yinit_guess) = true)
    by (apply cond_func_init; [exact Hbig | lia]).
  exists ystar. do 8 (split; [assumption|]).
  destruct (gt_lit (c_err c1) tol) eqn:Hg.
  - apply while_run_run with (n := 2%nat); auto.
    + cbn [iterate]. rewrite H1. cbn [bind]. now rewrite H2.
    + intros [|[|k]] Hk; [| |lia].
      * eexists. split; [reflexivity | exact Hc0].
      * exists c1. split; [cbn [iterate]; now rewrite H1|].
        rewrite cond_func_int32, Hg, Hi1 by exact Hr. simpl.
        apply Z.ltb_lt. lia.
    + rewrite cond_func_eq, Herr, Hzero. reflexivity.
  - apply while_run_run with (n := 1%nat); [| | |lia].
    + cbn [iterate]. now rewrite H1.
    + intros [|k] Hk; [|lia].
      eexists. split; [reflexivity | exact Hc0].
    + rewrite cond_func_eq, Hg. reflexivity.
Qed.

End Affine.

(** ** The rule on the two-sample linear recurrence *)

Section Rnn2Facts.
Import Callers.
Context {T : Type} {K : Scalar T} {E : ExactScalar K}.
Variable a : T.
Variables max_iter : Z.
Variable fuel : nat.
Hypothesis Hmax : 2 <= max_iter <= int32_max.
Hypothesis Hfuel : (2 < fuel)%nat.

Add Ring exact_ring3 : (ex_ring (K:=K)).

Local Abbreviation helper' theta x v0 s0 yinit :=
  (deer_iteration_helper (rnn_inv_lin (K:=K)) (rnn_func2 a)
     (rnn_jacfunc a) (rnn_shifter (T:=T)) 1 theta x [[v0]] [s0] yinit
     max_iter false fuel).

Lemma rnn2_affine (theta x1 x2 s0 u2 : T) (y : @seq2 T) :
  (exists u1, y = [[u1]; [u2]]) ->
  affine_at (rnn_func2 a) (rnn_jacfunc a) (rnn_shifter (T:=T))
    [[mul theta x1]; [mul theta x2]] [[[[a]]; [[a]]]] theta
    [[x1]; [x2]] [s0] y.
Proof.
  intros [u1 ->] us Hus. injection Hus as <-. split; [reflexivity|].
  cbn. repeat (f_equal; try ring).
Qed.

Lemma rnn2_helper (theta x1 x2 v0 s0 g1 g2 : T) :
  helper' theta [[x1]; [x2]] v0 s0 [[g1]; [g2]]
  = Some (Ok (rnn2_solution a theta x1 x2 v0,
              [[[[neg a]]; [[neg a]]]])).
Proof.
  pose proof (@rnn2_affine theta x1 x2 s0 g2 [[g1]; [g2]]
                (ex_intro _ g1 eq_refl)) as Haff0.
  destruct (iter_func (rnn_inv_lin (K:=K)) (rnn_func2 a) (rnn_jacfunc a)
              (rnn_shifter (T:=T)) theta [[x1]; [x2]] [[v0]] [s0] false
              (init_carry 1 [[g1]; [g2]])) as [c1|e1] eqn:H1;
    [|cbn in H1; discriminate].
  pose proof H1 as H1'. cbn in H1'. injection H1' as Hc1.
  assert (Haff1 : affine_at (rnn_func2 a) (rnn_jacfunc a)
                    (rnn_shifter (T:=T))
                    [[mul theta x1]; [mul theta x2]] [[[[a]]; [[a]]]]
                    theta [[x1]; [x2]] [s0] (c_yt c1)).
  { rewrite <- Hc1. eapply rnn2_affine. eexists. reflexivity. }
  destruct (iter_func (rnn_inv_lin (K:=K)) (rnn_func2 a) (rnn_jacfunc a)
              (rnn_shifter (T:=T)) theta [[x1]; [x2]] [[v0]] [s0] false
              c1) as [c2|e2] eqn:H2;
    [|rewrite <- Hc1 in H2; cbn in H2; discriminate].
  destruct (@affine_run T K E _ _ _ _ (rnn_inv_lin (K:=K))
              (rnn_func2 a) (rnn_jacfunc a) (rnn_shifter (T:=T)) 1 theta
              [[x1]; [x2]] [[v0]] [s0] false
              [[mul theta x1]; [mul theta x2]] [[[[a]]; [[a]]]]
              [[g1]; [g2]] max_iter fuel c1 c2 Hmax Hfuel Haff0 Haff1
              H1 H2)
    as (ystar & Hinv & Hyt1 & Hsame & _ & _ & _ & Hg1 & Hg2 & Hrun).
  destruct (results_of_run _ _ _ _ _ _ _ _ _ _ _ _ _ Hrun)
    as (_ & Hhelp & _).
  rewrite Hhelp, (deer_trace_ok _ _ _ _ _ _ _ _ _ _ _ H1).
  replace (same_carry_type (init_carry 1 [[g1]; [g2]]) c1) with true
    by (rewrite <- Hc1; reflexivity).
  unfold after_check. cbn [bind].
  cbn in Hinv. injection Hinv as <-.
  replace (c_yt (if gt_lit (c_err c1) tol then c2 else c1))
    with (c_yt c1) by (destruct (gt_lit (c_err c1) tol); congruence).
  replace (c_gts (if gt_lit (c_err c1) tol then c2 else c1))
    with (c_gts c1) by (destruct (gt_lit (c_err c1) tol); congruence).
  rewrite Hyt1, Hg1.
  unfold rnn2_solution. cbn. repeat (f_equal; try ring).
Qed.

Lemma rnn2_run (theta x1 x2 v0 s0 g1 g2 : T) :
  deer_iteration (rnn_inv_lin (K:=K)) (rnn_func2 a) (rnn_jacfunc a)
    (rnn_shifter (T:=T)) 1 theta [[x1]; [x2]] [[v0]] [s0]
    [[g1]; [g2]] max_iter false fuel
  = Some (Ok (rnn2_solution a theta x1 x2 v0)).
Proof. unfold deer_iteration. now rewrite rnn2_helper. Qed.

Lemma rnn2_jvp (theta x1 x2 v0 s0 g1 g2 dtheta dx1 dx2 dv0 : T)
    (gs : @vec T) (gy : @seq2 T) :
  deer_iteration_jvp (rnn_inv_lin (K:=K)) (rnn_func2 a) (rnn_jacfunc a)
    (rnn_shifter (T:=T)) (rnn_func2_jvp a) (rnn_inv_lin_jvp (K:=K))
    1 max_iter false
    (theta, [[x1]; [x2]], [[v0]], [s0], [[g1]; [g2]])
    (dtheta, [[dx1]; [dx2]], [[dv0]], gs, gy) fuel
  = Some (Ok (rnn2_solution a theta x1 x2 v0,
              rnn2_tangent a theta x1 x2 dtheta dx1 dx2 dv0)).
Proof.
  unfold deer_iteration_jvp. rewrite rnn2_helper.
  unfold rnn2_solution, rnn2_tangent. cbn.
  repeat (f_equal; try ring).
Qed.

Lemma rnn2_expansion (theta x1 x2 v0 dtheta dx1 dx2 dv0 eps : T)
    (i j : nat) :
  (i < 2)%nat -> (j < 1)%nat ->
  entry (rnn2_solution a (add theta (mul eps dtheta))
           (add x1 (mul eps dx1)) (add x2 (mul eps dx2))
           (add v0 (mul eps dv0))) i j
  = expansion eps (rnn2_solution a theta x1 x2 v0)
      (rnn2_tangent a theta x1 x2 dtheta dx1 dx2 dv0)
      (rnn2_second a dtheta dx1 dx2) i j.
Proof.
  clear Hmax Hfuel. intros Hi Hj. destruct j as [|j]; [|lia].
  destruct i as [|[|i]]; [| |lia];
    unfold expansion, entry, rnn2_solution, rnn2_tangent, rnn2_second;
    cbn [nth]; ring.
Qed.

(** X15: on the two-sample linear recurrence, in exact arithmetic, the
    tangent the rule returns is the directional derivative of the
    output of the loop in [params], [xinput] and [inv_lin_params]: the
    output at the inputs moved by [eps] times the direction is the
    output plus [eps] times the tangent plus [eps^2] times a term that
    does not depend on [eps]. *)
Theorem linear_recurrence_gradient
    (theta x1 x2 v0 s0 g1 g2 dtheta dx1 dx2 dv0 : T) (gs : @vec T)
    (gy : @seq2 T) :
  deer_iteration_jvp (rnn_inv_lin (K:=K)) (rnn_func2 a) (rnn_jacfunc a)
    (rnn_shifter (T:=T)) (rnn_func2_jvp a) (rnn_inv_lin_jvp (K:=K))
    1 max_iter false
    (theta, [[x1]; [x2]], [[v0]], [s0], [[g1]; [g2]])
    (dtheta, [[dx1]; [dx2]], [[dv0]], gs, gy) fuel
  = Some (Ok (rnn2_solution a theta x1 x2 v0,
              rnn2_tangent a theta x1 x2 dtheta dx1 dx2 dv0)) /\
  forall eps : T,
    exists y_eps,
      deer_iteration (rnn_inv_lin (K:=K)) (rnn_func2 a) (rnn_jacfunc a)
        (rnn_shifter (T:=T)) 1 (add theta (mul eps dtheta))
        [[add x1 (mul eps dx1)]; [add x2 (mul eps dx2)]]
        [[add v0 (mul eps dv0)]] [s0] [[g1]; [g2]] max_iter false fuel
      = Some (Ok y_eps) /\
      forall i j, (i < 2)%nat -> (j < 1)%nat ->
        entry y_eps i j
        = expansion eps (rnn2_solution a theta x1 x2 v0)
            (rnn2_tangent a theta x1 x2 dtheta dx1 dx2 dv0)
            (rnn2_second a dtheta dx1 dx2) i j.
Proof.
  split; [apply rnn2_jvp|].
  intros eps. eexists. split; [apply rnn2_run|].
  intros i j Hi Hj. now apply rnn2_expansion.
Qed.
End Rnn2Facts.

(** ** The clipping guard in IEEE arithmetic *)

Section ClipGuard.
Import IEEE.
Variable d : dtype.
Local Abbreviation Kd := (float_scalar d).

Lemma SFltb_leb (x y : spec_float) : SFltb x y = true -> SFleb x y = true.
Proof.
  unfold SFltb, SFleb. now destruct (SFcompare x y) as [[| |]|].
Qed.

Lemma SFltb_not_nan (x y : spec_float) :
  SFltb x y = true -> fisnan x = false /\ fisnan y = false.
Proof. now destruct x, y. Qed.

Lemma clip_bounds_facts :
  fisnan (clip_lo d) = false /\ fisnan (clip_hi d) = false /\
  SFleb (clip_lo d) (clip_lo d) = true /\
  SFleb (clip_hi d) (clip_hi d) = true /\
  SFltb (clip_lo d) (clip_hi d) = true /\
  in_clip_range d (fof_int d 0).
Proof. destruct d; repeat split; vm_compute; reflexivity. Qed.

(** The guard on one entry, by the two comparisons with the bounds. *)
Lemma guard_entry_cases (x : spec_float) :
  (fisnan x = true -> guard_entry d x = fof_int d 0) /\
  (fisnan x = false -> SFltb (clip_lo d) x = false ->
     guard_entry d x = clip_lo d) /\
  (SFltb (clip_lo d) x = true -> SFltb x (clip_hi d) = false ->
     guard_entry d x = clip_hi d) /\
  (SFltb (clip_lo d) x = true -> SFltb x (clip_hi d) = true ->
     guard_entry d x = x).
Proof.
  destruct clip_bounds_facts as (Hlo & Hhi & _ & _ & Hlt & _).
  unfold guard_entry, nan_to_zero, clip_entry. simpl.
  unfold fminimum, fmaximum. rewrite Hlo, Hhi.
  repeat split.
  - intros Hx. destruct x; try discriminate. reflexivity.
  - intros Hx Hc. rewrite Hx, Hc, Hlo, Hlt, Hlo. reflexivity.
  - intros Hc Hc'. destruct (SFltb_not_nan _ _ Hc) as [_ Hx].
    rewrite Hx, Hc, Hx, Hc', Hhi. reflexivity.
  - intros Hc Hc'. destruct (SFltb_not_nan _ _ Hc) as [_ Hx].
    rewrite Hx, Hc, Hx, Hc', Hx. reflexivity.
Qed.

Lemma guard_entry_in_range (x : spec_float) :
  in_clip_range d (guard_entry d x).
Proof.
  destruct clip_bounds_facts as (Hlo & Hhi & Hll & Hhh & Hlt & H0).
  destruct (guard_entry_cases x) as (Hnan & Hbelow & Habove & Hin).
  destruct (fisnan x) eqn:Hx.
  - rewrite Hnan by reflexivity. exact H0.
  - destruct (SFltb (clip_lo d) x) eqn:Hc.
    + destruct (SFltb x (clip_hi d)) eqn:Hc'.
      * rewrite Hin by reflexivity.
        repeat split; auto using SFltb_leb.
      * rewrite Habove by reflexivity.
        repeat split; auto using SFltb_leb.
    + rewrite Hbelow by reflexivity.
      repeat split; auto using SFltb_leb.
Qed.

Lemma clip_guard_on (y : seq2) :
  clip_guard (K:=Kd) true y = seq_map (guard_entry d) y.
Proof.
  unfold clip_guard, where_isnan_zero, jnp_clip, seq_map.
  rewrite map_map. apply map_ext. intros row.
  rewrite map_map. reflexivity.
Qed.

Variables X P IP SP : Type.
Variable inv_lin : list (@seq3 spec_float) -> @seq2 spec_float -> IP
                   -> result (@seq2 spec_float).
Variable func2 : list (@seq2 spec_float) -> X -> P
                 -> result (@seq2 spec_float).
Variable jacfunc : list (@seq2 spec_float) -> X -> P
                   -> result (list (@seq3 spec_float)).
Variable shifter_func : @seq2 spec_float -> SP
                        -> result (list (@seq2 spec_float)).
Variable params : P.
Variable xinput : X.
Variable inv_lin_params : IP.
Variable shifter_func_params : SP.

Local Abbreviation iter_func' clip :=
  (iter_func (K:=Kd) inv_lin func2 jacfunc shifter_func params xinput
     inv_lin_params shifter_func_params clip).

End ClipGuard.

(** * Further properties of the iteration and of the backward-Euler pieces *)

(** ** The loop: termination, the returned bundle, empty input *)

Lemma iterate_snoc {St : Type} (body : St -> result St) :
  forall n s s' s'',
    iterate body n s = Ok s' -> body s' = Ok s'' ->
    iterate body (S n) s = Ok s''.
Proof.
  induction n as [|n IH]; intros s s' s'' H Hb.
  - simpl in H. injection H as ->. simpl. now rewrite Hb.
  - change (iterate body (S (S n)) s)
      with (s1 <- body s ;; iterate body (S n) s1).
    simpl in H. destruct (body s) as [s1|e]; [|discriminate].
    simpl in H |- *. exact (IH _ _ _ H Hb).
Qed.

Section DeerMore.
Context {T : Type} {K : Scalar T}.
Variables X P IP SP : Type.
Variable inv_lin : list (@seq3 T) -> @seq2 T -> IP -> result (@seq2 T).
Variable func2 : list (@seq2 T) -> X -> P -> result (@seq2 T).
Variable jacfunc : list (@seq2 T) -> X -> P -> result (list (@seq3 T)).
Variable shifter_func : @seq2 T -> SP -> result (list (@seq2 T)).
Variable p_num : Z.
Variable params : P.
Variable xinput : X.
Variable inv_lin_params : IP.
Variable shifter_func_params : SP.

Local Abbreviation iter_func' clip :=
  (iter_func inv_lin func2 jacfunc shifter_func params xinput
     inv_lin_params shifter_func_params clip).
Local Abbreviation deer_loop' y m clip :=
  (deer_loop inv_lin func2 jacfunc shifter_func p_num params xinput
     inv_lin_params shifter_func_params y m clip).
Local Abbreviation deer_iteration_helper' y m clip :=
  (deer_iteration_helper inv_lin func2 jacfunc shifter_func p_num params
     xinput inv_lin_params shifter_func_params y m clip).
Local Abbreviation deer_iteration' y m clip :=
  (deer_iteration inv_lin func2 jacfunc shifter_func p_num params
     xinput inv_lin_params shifter_func_params y m clip).

(** From a counter within the budget the loop ends before the fuel
    [max_iter - iiter + 1] is spent, with the counter still within the
    budget. *)
Lemma while_within_budget (max_iter : Z) (clip : bool) :
  - 2 ^ 31 <= max_iter <= int32_max ->
  forall fuel c,
    0 <= c_iter c <= Z.max 0 max_iter ->
    (Z.to_nat (max_iter - c_iter c) < fuel)%nat ->
    exists r,
      while_run fuel (cond_func max_iter) (iter_func' clip) c = Some r /\
      forall c', r = Ok c' -> 0 <= c_iter c' <= Z.max 0 max_iter.
Proof.
  intros Hm. induction fuel as [|fuel IH]; intros c Hc Hf; [lia|].
  cbn [while_run]. destruct (cond_func max_iter c) eqn:Hcond.
  - rewrite cond_func_int32 in Hcond by exact Hm.
    apply andb_true_iff in Hcond.
    destruct Hcond as [_ Hlt]. apply Z.ltb_lt in Hlt.
    destruct (iter_func' clip c) as [c1|e] eqn:Hb.
    + destruct (iter_func_inv _ _ _ _ _ _ _ _ _ _ Hb)
        as (? & ? & ? & ? & ? & ? & _ & _ & _ & _ & _ & _ & _ & _ & _
            & Hi).
      rewrite wrap32_small in Hi by (unfold int32_max in *; lia).
      apply IH; lia.
    + exists (Raise e). split; [reflexivity | discriminate].
  - exists (Ok c). split; [reflexivity|].
    intros c' Hc'. injection Hc' as <-. exact Hc.
Qed.

(** X1: with a budget that fits [int32] the loop always ends: fuel
    above [max_iter] is never spent.  It ends with a result or with an
    exception, and the counter of a result lies between [0] and the
    budget. *)
Theorem loop_ends_within_budget (yinit_guess : seq2) (max_iter : Z)
    (clip : bool) (fuel : nat) :
  - 2 ^ 31 <= max_iter <= int32_max -> (Z.to_nat max_iter < fuel)%nat ->
  exists r,
    deer_loop' yinit_guess max_iter clip fuel = Some r /\
    forall c, r = Ok c -> 0 <= c_iter c <= Z.max 0 max_iter.
Proof.
  intros Hm Hf.
  destruct (@while_within_budget max_iter clip Hm fuel
              (init_carry p_num yinit_guess))
    as (r & Hr & Hb); [simpl; lia | simpl; now rewrite Z.sub_0_r |].
  unfold deer_loop, while_loop.
  destruct (trace_check same_carry_type (iter_func' clip)
              (init_carry p_num yinit_guess)) as [[]|e].
  - exists r. auto.
  - exists (Raise e). split; [reflexivity | discriminate].
Qed.

(** X2: the Jacobian bundle the helper returns is either the initial
    all-zero one, when the body never ran, or the negated Jacobians at
    the shift set of the estimate BEFORE the last update: the returned
    estimate is what [inv_lin] made of that bundle, not the point the
    bundle was evaluated at. *)
Theorem bundle_is_of_previous_estimate (yinit_guess : seq2)
    (max_iter : Z) (clip : bool) (fuel : nat) (y : seq2)
    (gts : list seq3) :
  deer_iteration_helper' yinit_guess max_iter clip fuel
    = Some (Ok (y, gts)) ->
  (y = yinit_guess /\
   gts = repeat (zeros_square_like yinit_guess) (Z.to_nat p_num)) \/
  (exists n cprev ytparams jacs rhs y',
     iterate (iter_func' clip) n (init_carry p_num yinit_guess)
       = Ok cprev /\
     cond_func max_iter cprev = true /\
     shifter_func (c_yt cprev) shifter_func_params = Ok ytparams /\
     jacfunc ytparams xinput params = Ok jacs /\
     gts = map seq3_neg jacs /\
     inv_lin gts rhs inv_lin_params = Ok y' /\
     y = clip_guard clip y').
Proof.
  intros H.
  destruct (helper_ok_inv _ _ _ _ _ _ _ _ _ _ _ _ _ H)
    as (c & Hl & <- & <-).
  apply deer_loop_ok in Hl. destruct Hl as [_ Hl].
  destruct (while_run_trace _ _ _ _ Hl) as (n & _ & Hit & Hk).
  destruct n as [|n].
  - left. simpl in Hit. injection Hit as <-. auto.
  - right. destruct (iterate_prefix _ _ _ Hit) as (cprev & Hprev & Hb).
    destruct (Hk n) as (ck & Hck & Hcond); [lia|].
    rewrite Hprev in Hck. injection Hck as <-.
    destruct (iter_func_inv _ _ _ _ _ _ _ _ _ _ Hb)
      as (us & jacs & f & rhs & y' & d & Hus & Hjacs & _ & _ & Hinv & _
          & _ & Hyt & Hg & _).
    exists n, cprev, us, jacs, rhs, y'. rewrite <- Hg in Hinv.
    repeat (split; [assumption|]). exact Hyt.
Qed.

Lemma vec_op_nil_r (f : T -> T -> T) (a r : @vec T) :
  vec_op f a [] = Ok r -> r = [].
Proof.
  unfold vec_op. destruct a; simpl; intros H; [|discriminate].
  now injection H.
Qed.

Lemma seq_op_concat_nil (f : T -> T -> T) : forall (a b r : @seq2 T),
  seq_op f a b = Ok r -> concat b = [] -> concat r = [].
Proof.
  unfold seq_op.
  induction a as [|x a IH]; intros [|y b] r H Hb; simpl in H;
    try discriminate.
  - now injection H as <-.
  - bind_inv H as v Hv. bind_inv H as vs Hvs. injection H as <-.
    simpl in Hb. apply app_eq_nil in Hb. destruct Hb as [-> Hb].
    apply vec_op_nil_r in Hv. subst v. simpl. now apply (IH b).
Qed.

Lemma concat_seq_map_nil (f : T -> T) : forall (a : @seq2 T),
  concat a = [] -> concat (seq_map f a) = [].
Proof.
  unfold seq_map. induction a as [|x a IH]; intros H; [reflexivity|].
  simpl in H. apply app_eq_nil in H. destruct H as [-> H].
  simpl. now apply IH.
Qed.

(** X3: a guess without entries never gives a result once the body
    runs: whatever the caller's functions return, the first execution
    raises, at the latest in [jnp.max] of the zero-size difference. *)
Theorem empty_guess_raises (yinit_guess : seq2) (max_iter : Z)
    (clip : bool) (fuel : nat) :
  concat yinit_guess = [] -> 1 <= max_iter ->
  gt_lit (of_int (10 ^ 10)) tol = true ->
  exists e,
    iter_func' clip (init_carry p_num yinit_guess) = Raise e /\
    deer_iteration' yinit_guess max_iter clip (S fuel) = Some (Raise e).
Proof.
  intros Hnil _ _.
  destruct (iter_func' clip (init_carry p_num yinit_guess))
    as [c1|e] eqn:Hb.
  - exfalso.
    destruct (iter_func_inv _ _ _ _ _ _ _ _ _ _ Hb)
      as (us & jacs & f & rhs & y' & d & _ & _ & _ & _ & _ & Hd & He & _).
    apply seq_op_concat_nil in Hd; [|exact Hnil].
    unfold jnp_max in He.
    rewrite (concat_seq_map_nil _ _ Hd) in He. discriminate.
  - exists e. split; [reflexivity|].
    unfold deer_iteration, deer_iteration_helper, deer_loop, while_loop,
      trace_check.
    rewrite Hb. reflexivity.
Qed.
End DeerMore.

(** ** IEEE arithmetic: the guard twice, half precision, not-a-number *)

Section GuardMore.
Import IEEE.

(** X4: the guard is idempotent: an estimate that went through it is
    left as it is by a second pass, in every dtype. *)
Theorem clip_guard_idempotent (d : dtype) (y : @seq2 spec_float) :
  clip_guard (K:=float_scalar d) true
    (clip_guard (K:=float_scalar d) true y)
  = clip_guard (K:=float_scalar d) true y.
Proof.
  assert (Hfix : forall x,
            guard_entry d (guard_entry d x) = guard_entry d x).
  { intros x.
    assert (H0 : guard_entry d (fof_int d 0) = fof_int d 0)
      by (destruct d; vm_compute; reflexivity).
    assert (Hlo : guard_entry d (clip_lo d) = clip_lo d)
      by (destruct d; vm_compute; reflexivity).
    assert (Hhi : guard_entry d (clip_hi d) = clip_hi d)
      by (destruct d; vm_compute; reflexivity).
    destruct (guard_entry_cases d x) as (Hnan & Hbelow & Habove & Hin).
    destruct (fisnan x) eqn:Hx.
    - rewrite Hnan by reflexivity. exact H0.
    - destruct (SFltb (clip_lo d) x) eqn:Hc.
      + destruct (SFltb x (clip_hi d)) eqn:Hc'.
        * rewrite !Hin by reflexivity. reflexivity.
        * rewrite Habove by reflexivity. exact Hhi.
      + rewrite Hbelow by reflexivity. exact Hlo. }
  rewrite !clip_guard_on. unfold seq_map. rewrite map_map.
  apply map_ext. intros row. rewrite map_map. apply map_ext. exact Hfix.
Qed.

(** X5: in half precision the bounds [-1e8] and [1e8] round to the two
    infinities, so the clamp changes nothing: the guard only replaces
    not-a-number entries by zero, and an infinite entry stays
    infinite. *)
Theorem half_precision_guard_keeps_infinities (y : @seq2 spec_float) :
  clip_lo float16 = S754_infinity true /\
  clip_hi float16 = S754_infinity false /\
  clip_guard (K:=float_scalar float16) true y
  = where_isnan_zero (K:=float_scalar float16) y.
Proof.
  split; [vm_compute; reflexivity|]. split; [vm_compute; reflexivity|].
  rewrite clip_guard_on. unfold where_isnan_zero, seq_map.
  apply map_ext. intros row. apply map_ext. intros x.
  unfold guard_entry. f_equal.
  change (clip_lo float16) with (S754_infinity true).
  change (clip_hi float16) with (S754_infinity false).
  destruct x as [s|s| |s m e]; try destruct s; reflexivity.
Qed.

Lemma fold_fmaximum_nan : forall (l : list spec_float) (x : spec_float),
  In S754_nan (x :: l) -> fold_left fmaximum l x = S754_nan.
Proof.
  induction l as [|v l IH]; intros x H.
  - destruct H as [->|[]]. reflexivity.
  - simpl. apply IH. destruct H as [->|[->|H]].
    + left. reflexivity.
    + left. unfold fmaximum. destruct x; reflexivity.
    + right. exact H.
Qed.

Lemma vec_sub_nan (d : dtype) : forall (a b r : @vec spec_float),
  vec_op (fsub d) a b = Ok r -> In S754_nan a ->
  In S754_nan (map SFabs r).
Proof.
  unfold vec_op.
  induction a as [|x a IH]; intros [|y b] r H Hin; simpl in H;
    try discriminate; [destruct Hin|].
  bind_inv H as zs Hzs. injection H as <-.
  destruct Hin as [->|Hin]; [now left | right; eauto].
Qed.

Lemma seq_sub_nan (d : dtype) : forall (a b r : @seq2 spec_float),
  seq_sub (K:=float_scalar d) a b = Ok r -> In S754_nan (concat a) ->
  In S754_nan (concat (seq_map SFabs r)).
Proof.
  unfold seq_sub, seq_op, seq_map.
  induction a as [|x a IH]; intros [|y b] r H Hin; simpl in H;
    try discriminate; [destruct Hin|].
  bind_inv H as v Hv. bind_inv H as vs Hvs. injection H as <-.
  simpl in Hin |- *. apply in_app_iff. apply in_app_iff in Hin.
  destruct Hin as [Hin|Hin].
  - left. exact (vec_sub_nan _ _ _ Hv Hin).
  - right. eauto.
Qed.

Variable d : dtype.
Variables X P IP SP : Type.
Variable inv_lin : list (@seq3 spec_float) -> @seq2 spec_float -> IP
                   -> result (@seq2 spec_float).
Variable func2 : list (@seq2 spec_float) -> X -> P
                 -> result (@seq2 spec_float).
Variable jacfunc : list (@seq2 spec_float) -> X -> P
                   -> result (list (@seq3 spec_float)).
Variable shifter_func : @seq2 spec_float -> SP
                        -> result (list (@seq2 spec_float)).
Variable p_num : Z.
Variable params : P.
Variable xinput : X.
Variable inv_lin_params : IP.
Variable shifter_func_params : SP.

Local Abbreviation Kd := (float_scalar d).
Local Abbreviation body_off :=
  (iter_func (K:=Kd) inv_lin func2 jacfunc shifter_func params xinput
     inv_lin_params shifter_func_params false).
Local Abbreviation init y := (init_carry (K:=Kd) p_num y).
Local Abbreviation trace_off y :=
  (deer_trace (K:=Kd) inv_lin func2 jacfunc shifter_func p_num params
     xinput inv_lin_params shifter_func_params y false).

(** X6: without the guard, an execution of the body whose new estimate
    has a not-a-number entry reports a not-a-number error, and the loop
    takes it for convergence: it stops right there and the iteration
    returns that estimate as an ordinary result (once
    [jax.lax.while_loop] has accepted the body), whatever budget is
    left. *)
Theorem nan_estimate_ends_loop (yinit_guess : @seq2 spec_float)
    (max_iter : Z) (fuel n : nat) (cprev c : carry) :
  iterate body_off n (init yinit_guess) = Ok cprev ->
  (forall k, (k <= n)%nat ->
     exists ck,
       iterate body_off k (init yinit_guess) = Ok ck /\
       cond_func (K:=Kd) max_iter ck = true) ->
  body_off cprev = Ok c ->
  In S754_nan (concat (c_yt c)) ->
  (S n < fuel)%nat ->
  c_err c = S754_nan /\
  deer_loop (K:=Kd) inv_lin func2 jacfunc shifter_func
    p_num params xinput inv_lin_params shifter_func_params yinit_guess
    max_iter false fuel
  = Some (after_check (trace_off yinit_guess) (Ok c)) /\
  deer_iteration (K:=Kd) inv_lin func2 jacfunc shifter_func
    p_num params xinput inv_lin_params shifter_func_params yinit_guess
    max_iter false fuel
  = Some (after_check (trace_off yinit_guess) (Ok (c_yt c))).
Proof.
  intros Hprev Hk Hb Hnan Hf.
  destruct (iter_func_inv _ _ _ _ _ _ _ _ _ _ Hb)
    as (us & jacs & f & rhs & y' & df & _ & _ & _ & _ & _ & Hd & He
        & Hyt & _).
  assert (Herr : c_err c = S754_nan).
  { rewrite <- Hyt in Hd. apply seq_sub_nan in Hd; [|exact Hnan].
    unfold jnp_max in He. simpl absv in He.
    destruct (concat (seq_map SFabs df)) as [|v l]; [destruct Hd|].
    injection He as <-. now apply fold_fmaximum_nan. }
  assert (Hrun : while_run fuel (cond_func (K:=Kd) max_iter) body_off
                   (init yinit_guess) = Some (Ok c)).
  { apply while_run_run with (n := S n).
    - exact (iterate_snoc _ _ _ Hprev Hb).
    - intros k Hlt. apply Hk. lia.
    - rewrite cond_func_eq, Herr. simpl gt_lit. unfold fgt_lit, SFltb.
      now destruct (fof_lit d tol).
    - exact Hf. }
  destruct (results_of_run _ _ _ _ _ _ _ _ _ _ _ _ _ Hrun)
    as (Hl & _ & Hi).
  split; [exact Herr|]. split; [exact Hl | exact Hi].
Qed.
End GuardMore.

(** ** IEEE arithmetic: a fixed point with finite entries *)

Section FixedPoint.
Import IEEE.
Variable d : dtype.
Local Abbreviation Kd := (float_scalar d).

Lemma fsub_self (x : spec_float) :
  fisfinite x = true -> fsub d x x = S754_zero false.
Proof.
  destruct x as [s|s| |s m e]; try discriminate; intros _.
  - now destruct s.
  - unfold fsub, SFsub. now rewrite Z.sub_diag.
Qed.

Lemma vec_sub_self_finite : forall (x r : @vec spec_float),
  forallb fisfinite x = true -> vec_op (fsub d) x x = Ok r ->
  Forall (fun v => v = S754_zero false) (map SFabs r).
Proof.
  unfold vec_op. induction x as [|a x IH]; intros r Hf H; simpl in H.
  - injection H as <-. constructor.
  - bind_inv H as zs Hzs. injection H as <-.
    simpl in Hf. apply andb_true_iff in Hf. destruct Hf as [Ha Hf].
    rewrite fsub_self by exact Ha. constructor; [reflexivity | auto].
Qed.

Lemma seq_sub_self_finite : forall (x r : @seq2 spec_float),
  forallb (forallb fisfinite) x = true ->
  seq_sub (K:=Kd) x x = Ok r ->
  Forall (fun v => v = S754_zero false) (concat (seq_map SFabs r)).
Proof.
  unfold seq_sub, seq_op, seq_map.
  induction x as [|a x IH]; intros r Hf H; simpl in H.
  - injection H as <-. constructor.
  - bind_inv H as v Hv. bind_inv H as vs Hvs. injection H as <-.
    simpl in Hf. apply andb_true_iff in Hf. destruct Hf as [Ha Hf].
    simpl. apply Forall_app. split; [|auto].
    exact (vec_sub_self_finite _ Ha Hv).
Qed.

Lemma fold_fmaximum_zeros : forall (l : list spec_float),
  Forall (fun v => v = S754_zero false) l ->
  fold_left fmaximum l (S754_zero false) = S754_zero false.
Proof.
  induction l as [|v l IH]; intros H; [reflexivity|].
  apply Forall_cons_iff in H. destruct H as [-> H]. simpl. auto.
Qed.

Lemma float_tol_bounds :
  fgt_lit d (fof_int d (10 ^ 10)) (tol (K:=Kd)) = true /\
  fgt_lit d (S754_zero false) (tol (K:=Kd)) = false.
Proof. destruct d; split; vm_compute; reflexivity. Qed.

Variables X P IP SP : Type.
Variable inv_lin : list (@seq3 spec_float) -> @seq2 spec_float -> IP
                   -> result (@seq2 spec_float).
Variable func2 : list (@seq2 spec_float) -> X -> P
                 -> result (@seq2 spec_float).
Variable jacfunc : list (@seq2 spec_float) -> X -> P
                   -> result (list (@seq3 spec_float)).
Variable shifter_func : @seq2 spec_float -> SP
                        -> result (list (@seq2 spec_float)).
Variable p_num : Z.
Variable params : P.
Variable xinput : X.
Variable inv_lin_params : IP.
Variable shifter_func_params : SP.

Local Abbreviation body clip :=
  (iter_func (K:=Kd) inv_lin func2 jacfunc shifter_func params xinput
     inv_lin_params shifter_func_params clip).
Local Abbreviation init y := (init_carry (K:=Kd) p_num y).
Local Abbreviation trace' y clip :=
  (deer_trace (K:=Kd) inv_lin func2 jacfunc shifter_func p_num params
     xinput inv_lin_params shifter_func_params y clip).
Local Abbreviation loop' y m clip fuel :=
  (deer_loop (K:=Kd) inv_lin func2 jacfunc shifter_func p_num params
     xinput inv_lin_params shifter_func_params y m clip fuel).
Local Abbreviation iteration' y m clip fuel :=
  (deer_iteration (K:=Kd) inv_lin func2 jacfunc shifter_func p_num
     params xinput inv_lin_params shifter_func_params y m clip fuel).

(** An execution that returns the finite estimate it was given reports
    the error [+0], which is not above the tolerance. *)
Lemma unchanged_estimate_error (clip : bool) (cprev c : carry) :
  body clip cprev = Ok c -> c_yt c = c_yt cprev ->
  forallb (forallb fisfinite) (c_yt c) = true ->
  c_err c = S754_zero false /\
  forall max_iter, cond_func (K:=Kd) max_iter c = false.
Proof.
  intros Hb Hfix Hfin.
  destruct (iter_func_inv _ _ _ _ _ _ _ _ _ _ Hb)
    as (us & jacs & f & rhs & y' & df & _ & _ & _ & _ & _ & Hd & He
        & Hyt & _).
  assert (Herr : c_err c = S754_zero false).
  { rewrite <- Hyt, <- Hfix in Hd.
    apply seq_sub_self_finite in Hd; [|exact Hfin].
    unfold jnp_max in He. simpl absv in He.
    destruct (concat (seq_map SFabs df)) as [|v l]; [discriminate|].
    apply Forall_cons_iff in Hd. destruct Hd as [-> Hd].
    injection He as <-. now apply fold_fmaximum_zeros. }
  split; [exact Herr|]. intros max_iter.
  rewrite cond_func_eq, Herr. simpl gt_lit.
  now rewrite (proj2 float_tol_bounds).
Qed.

(** The loop as it runs from a finite estimate the body maps to
    itself. *)
Lemma fixed_point_run (y : @seq2 spec_float) (max_iter : Z)
    (clip : bool) (fuel : nat) (c1 : carry) :
  1 <= max_iter <= int32_max -> (1 < fuel)%nat ->
  forallb (forallb fisfinite) y = true ->
  body clip (init y) = Ok c1 -> c_yt c1 = y ->
  c_err c1 = S754_zero false /\ c_iter c1 = 1 /\
  while_run fuel (cond_func (K:=Kd) max_iter) (body clip) (init y)
  = Some (Ok c1).
Proof.
  intros Hm Hfuel Hfin Hb Hfix.
  destruct (@unchanged_estimate_error clip (init y) c1 Hb Hfix)
    as [Herr Hstop]; [now rewrite Hfix|].
  destruct (iter_func_inv _ _ _ _ _ _ _ _ _ _ Hb)
    as (_ & _ & _ & _ & _ & _ & _ & _ & _ & _ & _ & _ & _ & _ & _ & Hi).
  assert (Hcnt : c_iter c1 = 1).
  { rewrite Hi. apply wrap32_small. unfold int32_max. simpl. lia. }
  split; [exact Herr|]. split; [exact Hcnt|].
  apply while_run_run with (n := 1%nat).
  - cbn [iterate]. now rewrite Hb.
  - intros [|k] Hk; [|lia]. eexists. split; [reflexivity|].
    apply cond_func_init; [exact (proj1 float_tol_bounds) | exact Hm].
  - apply Hstop.
  - exact Hfuel.
Qed.

(** X7: started at a guess with finite entries that the body maps to
    itself, bit for bit, the loop runs the body once, finds the error
    [+0] and returns the guess (once [jax.lax.while_loop] has accepted
    the body): a finite fixed point of the update is stable, in every
    dtype. *)
Theorem finite_fixed_point_is_returned (y : @seq2 spec_float)
    (max_iter : Z) (clip : bool) (fuel : nat) (c1 : carry) :
  1 <= max_iter <= int32_max -> (1 < fuel)%nat ->
  forallb (forallb fisfinite) y = true ->
  body clip (init y) = Ok c1 ->
  c_yt c1 = y ->
  c_err c1 = S754_zero false /\ c_iter c1 = 1 /\
  loop' y max_iter clip fuel
    = Some (after_check (trace' y clip) (Ok c1)) /\
  iteration' y max_iter clip fuel
    = Some (after_check (trace' y clip) (Ok y)).
Proof.
  intros Hm Hfuel Hfin Hb Hfix.
  destruct (@fixed_point_run y max_iter clip fuel c1 Hm Hfuel Hfin Hb
              Hfix) as (Herr & Hcnt & Hrun).
  destruct (results_of_run _ _ _ _ _ _ _ _ _ _ _ _ _ Hrun)
    as (Hl & _ & Hi).
  rewrite Hfix in Hi. auto.
Qed.


(** X13: with [clip_ytnext] and a budget of at least one iteration
    within [int32], whatever the iteration returns went through the
    guard: every entry of the result lies within the clip bounds and
    none is a not-a-number, also when the guess held such entries. *)
Theorem guarded_result_in_range (yinit_guess y : @seq2 spec_float)
    (max_iter : Z) (fuel : nat) :
  1 <= max_iter <= int32_max ->
  iteration' yinit_guess max_iter true fuel = Some (Ok y) ->
  Forall (Forall (in_clip_range d)) y.
Proof.
  intros Hm H.
  destruct (iteration_ok_inv _ _ _ _ _ _ _ _ _ _ _ _ _ H)
    as (c & Hl & <-).
  apply deer_loop_ok in Hl. destruct Hl as [_ Hl].
  pose proof (while_run_exit _ _ _ _ Hl) as Hex.
  destruct (while_run_trace _ _ _ _ Hl) as (n & _ & Hit & _).
  destruct n as [|n].
  - cbn [iterate] in Hit. injection Hit as <-.
    rewrite cond_func_init in Hex;
      [discriminate | exact (proj1 float_tol_bounds) | exact Hm].
  - destruct (iterate_prefix _ _ _ Hit) as (cprev & _ & Hb).
    destruct (iter_func_inv _ _ _ _ _ _ _ _ _ _ Hb)
      as (us & jacs & f & rhs & y' & df & _ & _ & _ & _ & _ & _ & _
          & Hyt & _).
    rewrite Hyt, clip_guard_on.
    unfold seq_map. apply Forall_forall. intros row Hrow.
    apply in_map_iff in Hrow. destruct Hrow as (r0 & <- & _).
    apply Forall_forall. intros v Hv.
    apply in_map_iff in Hv. destruct Hv as (v0 & <- & _).
    apply guard_entry_in_range.
Qed.
End FixedPoint.

(** ** The backward-Euler operator: its arguments, superposition *)

Section SolveIdaeShape.
Context {T : Type} {K : Scalar T}.
Variable linalg_inv : @mat T -> @mat T.

(** X8: the operator unpacks its arguments before any arithmetic: it
    raises [ValueError] unless it is given exactly two Jacobian blocks
    and a one-element parameter tuple, and what it returns starts with
    that one parameter, [y0] itself. *)
Theorem solve_idae_inv_lin_unpacks (jacs : list (@seq3 T))
    (z : @seq2 T) (inv_lin_params : list (@vec T)) :
  (length jacs <> 2%nat ->
   solve_idae_inv_lin linalg_inv jacs z inv_lin_params
     = Raise ValueError) /\
  (length inv_lin_params <> 1%nat ->
   solve_idae_inv_lin linalg_inv jacs z inv_lin_params
     = Raise ValueError) /\
  (forall y,
     solve_idae_inv_lin linalg_inv jacs z inv_lin_params = Ok y ->
     exists M0 M1 y0,
       jacs = [M0; M1] /\ inv_lin_params = [y0] /\ nth 0 y [] = y0).
Proof.
  unfold solve_idae_inv_lin. split; [|split].
  - destruct jacs as [|M0 [|M1 [|? ?]]]; simpl; intros H;
      try reflexivity; lia.
  - destruct jacs as [|M0 [|M1 [|? ?]]]; try reflexivity.
    destruct inv_lin_params as [|y0 [|? ?]]; simpl; intros H;
      try reflexivity; lia.
  - intros y H.
    destruct jacs as [|M0 [|M1 [|? ?]]]; try discriminate.
    destruct inv_lin_params as [|y0 [|? ?]]; try discriminate.
    bind_inv H as p Hp. bind_inv H as b Hb.
    unfold matmul_recursive in H. bind_inv H as ys Hys.
    injection H as <-. exists M0, M1, y0. auto.
Qed.
End SolveIdaeShape.

Section Superposition.
Context {T : Type} {K : Scalar T} {E : ExactScalar K}.
Variable linalg_inv : @mat T -> @mat T.

Add Ring exact_ring3 : (ex_ring (K:=K)).

Lemma combine_nil_r {A B : Type} (l : list A) : combine l (@nil B) = [].
Proof. now destruct l. Qed.

Lemma vaddp_nil_r (a : @vec T) : vaddp a [] = [].
Proof. unfold vaddp. now rewrite combine_nil_r. Qed.

Lemma vaddp_interchange : forall (a a' b b' : @vec T),
  vaddp (vaddp a a') (vaddp b b') = vaddp (vaddp a b) (vaddp a' b').
Proof.
  induction a as [|x a IH]; intros a' b b'; [reflexivity|].
  destruct a' as [|x' a'].
  { rewrite vaddp_nil_r. change (vaddp [] b') with (@nil T).
    rewrite vaddp_nil_r. reflexivity. }
  destruct b as [|w b]; [reflexivity|].
  destruct b' as [|w' b'].
  - rewrite !vaddp_nil_r. reflexivity.
  - change (add (add x x') (add w w')
            :: vaddp (vaddp a a') (vaddp b b')
            = add (add x w) (add x' w')
              :: vaddp (vaddp a b) (vaddp a' b')).
    rewrite IH. f_equal. ring.
Qed.

Lemma vaddp_min_length (a b : @vec T) :
  length (vaddp a b) = Nat.min (length a) (length b).
Proof. unfold vaddp. now rewrite length_map, length_combine. Qed.

Lemma dot_length (row v : @vec T) (x : T) :
  dot row v = Ok x -> length v = length row.
Proof.
  unfold dot. intros H. bind_inv H as ps Hps.
  now destruct (zip_strict_spec _ _ _ _ Hps) as (_ & Hl & _).
Qed.

Lemma dot_add_r (row v w : @vec T) (x x' : T) :
  dot row v = Ok x -> dot row w = Ok x' ->
  dot row (vaddp v w) = Ok (add x x').
Proof.
  intros Hv Hw.
  pose proof (dot_length _ _ Hv) as Hlv.
  pose proof (dot_length _ _ Hw) as Hlw.
  rewrite (dot_spec _ _ Hv), (dot_spec _ _ Hw).
  rewrite dot_pure by (rewrite vaddp_min_length; lia).
  rewrite dotp_add_r by congruence. reflexivity.
Qed.

Lemma matvec_add_r : forall (m : @mat T) (v w r r' : @vec T),
  matvec m v = Ok r -> matvec m w = Ok r' ->
  matvec m (vaddp v w) = Ok (vaddp r r').
Proof.
  unfold matvec.
  induction m as [|row m IH]; intros v w r r' Hv Hw; simpl in Hv, Hw.
  - injection Hv as <-. injection Hw as <-. reflexivity.
  - bind_inv Hv as x Hx. bind_inv Hv as xs Hxs. injection Hv as <-.
    bind_inv Hw as x' Hx'. bind_inv Hw as xs' Hxs'. injection Hw as <-.
    simpl. rewrite dot_add_r with (x:=x) (x':=x') by assumption. simpl.
    rewrite (IH _ _ _ _ Hxs Hxs'). reflexivity.
Qed.

Lemma vec_add_add (a b a' b' r r' : @vec T) :
  vec_add a b = Ok r -> vec_add a' b' = Ok r' ->
  vec_add (vaddp a a') (vaddp b b') = Ok (vaddp r r').
Proof.
  unfold vec_add, vec_op. intros H H'.
  destruct (zip_strict_spec _ _ _ _ H) as (_ & Hl & _).
  destruct (zip_strict_spec _ _ _ _ H') as (_ & Hl' & _).
  rewrite (zip_strict_pure _ _ _ _ H), (zip_strict_pure _ _ _ _ H').
  rewrite zip_strict_total by (rewrite !vaddp_min_length; lia).
  f_equal. apply vaddp_interchange.
Qed.

Lemma einsum_ij_j_add : forall (ms : @seq3 T) (z z' b b' : @seq2 T),
  einsum_ij_j ms z = Ok b -> einsum_ij_j ms z' = Ok b' ->
  einsum_ij_j ms (saddp z z') = Ok (saddp b b').
Proof.
  unfold einsum_ij_j, saddp.
  induction ms as [|m ms IH]; intros [|v z] [|v' z'] b b' H H';
    simpl in H, H'; try discriminate.
  - injection H as <-. injection H' as <-. reflexivity.
  - bind_inv H as r Hr. bind_inv H as rs Hrs. injection H as <-.
    bind_inv H' as r' Hr'. bind_inv H' as rs' Hrs'. injection H' as <-.
    simpl. rewrite matvec_add_r with (r:=r) (r':=r') by assumption.
    simpl.
    rewrite (IH _ _ _ _ Hrs Hrs'). reflexivity.
Qed.

Lemma recurrence_from_add : forall (mats : @seq3 T)
    (b b' ys ys' : @seq2 T) (yp yp' : @vec T),
  recurrence_from yp mats b = Ok ys ->
  recurrence_from yp' mats b' = Ok ys' ->
  recurrence_from (vaddp yp yp') mats (saddp b b') = Ok (saddp ys ys').
Proof.
  unfold saddp.
  induction mats as [|a mats IH]; intros [|v b] [|v' b'] ys ys' yp yp'
    H H'; simpl in H, H'; try discriminate.
  - injection H as <-. injection H' as <-. reflexivity.
  - bind_inv H as ay Hay. bind_inv H as y Hy. bind_inv H as t Ht.
    injection H as <-.
    bind_inv H' as ay' Hay'. bind_inv H' as y' Hy'. bind_inv H' as t' Ht'.
    injection H' as <-.
    simpl. rewrite matvec_add_r with (r:=ay) (r':=ay') by assumption.
    simpl.
    rewrite vec_add_add with (r:=y) (r':=y') by assumption. simpl.
    rewrite (IH _ _ _ _ _ _ Ht Ht'). reflexivity.
Qed.

Lemma tl_saddp (z z' : @seq2 T) : tl (saddp z z') = saddp (tl z) (tl z').
Proof.
  unfold saddp. destruct z as [|v z], z' as [|v' z']; simpl;
    try reflexivity.
  now rewrite combine_nil_r.
Qed.

(** X9: in exact arithmetic the operator superposes: for fixed Jacobian
    blocks, the result on the sum of two right-hand sides and of two
    base cases is the sum of the two results.  It is linear in
    [(z, y0)], which is what lets the differentiation rule push a
    tangent through it. *)
Theorem solve_idae_inv_lin_superposes (jacs : list (@seq3 T))
    (z z' : @seq2 T) (y0 y0' : @vec T) (y y' : @seq2 T) :
  solve_idae_inv_lin linalg_inv jacs z [y0] = Ok y ->
  solve_idae_inv_lin linalg_inv jacs z' [y0'] = Ok y' ->
  solve_idae_inv_lin linalg_inv jacs (saddp z z') [vaddp y0 y0']
  = Ok (saddp y y').
Proof.
  unfold solve_idae_inv_lin. intros H H'.
  destruct jacs as [|M0 [|M1 [|? ?]]]; try discriminate.
  bind_inv H as p Hp. bind_inv H as b Hb.
  rewrite Hp in H'. simpl in H'. bind_inv H' as b' Hb'.
  unfold matmul_recursive in H, H'.
  bind_inv H as ys Hys. injection H as <-.
  bind_inv H' as ys' Hys'. injection H' as <-.
  rewrite Hp. simpl. rewrite tl_saddp.
  rewrite einsum_ij_j_add with (b:=b) (b':=b') by assumption. simpl.
  unfold matmul_recursive.
  rewrite recurrence_from_add with (ys:=ys) (ys':=ys') by assumption.
  reflexivity.
Qed.
End Superposition.

(** ** The backward-Euler pieces of [DEER.compute] *)

Section BackwardEulerFacts.
Context {T : Type} {K : Scalar T}.

Lemma removelast_length {A : Type} : forall (l : list A),
  length (removelast l) = (length l - 1)%nat.
Proof.
  induction l as [|a [|b l] IH]; try reflexivity.
  change (S (length (removelast (b :: l))) = (length (a :: b :: l) - 1)%nat).
  rewrite IH. simpl. lia.
Qed.

Lemma nth_removelast {A : Type} (d : A) : forall (l : list A) i,
  (S i < length l)%nat -> nth i (removelast l) d = nth i l d.
Proof.
  induction l as [|a [|b l] IH]; intros i Hi; simpl in Hi; try lia.
  destruct i as [|i]; [reflexivity|].
  change (nth i (removelast (b :: l)) d = nth i (b :: l) d).
  apply IH. simpl. lia.
Qed.

(** X10: [linfunc] returns the sequence and its shift by one sample:
    two arrays of one length, the second starting with sample [0]
    again and holding sample [i - 1] at every later place [i]; the last
    sample is dropped. *)
Theorem linfunc_shifts_by_one {LP : Type} (y : @seq2 T)
    (lin_params : LP) :
  exists ym1,
    linfunc y lin_params = [y; ym1] /\
    length ym1 = length y /\
    nth 0 ym1 [] = nth 0 y [] /\
    forall i, (S i < length y)%nat -> nth (S i) ym1 [] = nth i y [].
Proof.
  unfold linfunc. exists (firstn 1 y ++ removelast y).
  split; [reflexivity|].
  destruct y as [|r y]; [repeat split; intros i Hi; inversion Hi|].
  change (firstn 1 (r :: y)) with [r].
  split; [|split; [reflexivity|]].
  - rewrite length_app, removelast_length. simpl. lia.
  - intros i Hi.
    change (nth i (removelast (r :: y)) [] = nth i (r :: y) []).
    now apply nth_removelast.
Qed.

Lemma differences_spec (d : T) : forall (t : @vec T),
  length (map (fun p => sub (fst p) (snd p))
            (combine (tl t) (removelast t))) = (length t - 1)%nat /\
  forall i, (S i < length t)%nat ->
    nth i (map (fun p => sub (fst p) (snd p))
             (combine (tl t) (removelast t))) d
    = sub (nth (S i) t d) (nth i t d).
Proof.
  induction t as [|a [|b t] IH].
  - split; [reflexivity | intros i Hi; inversion Hi].
  - split; [reflexivity | intros i Hi; simpl in Hi; lia].
  - destruct IH as [IHl IHn].
    change (combine (tl (a :: b :: t)) (removelast (a :: b :: t)))
      with ((b, a) :: combine (tl (b :: t)) (removelast (b :: t))).
    split.
    + cbn [map length]. cbn [map length] in IHl. rewrite IHl. lia.
    + intros [|i] Hi; [reflexivity|].
      cbn [map nth].
      rewrite IHn by (simpl in Hi |- *; lia). reflexivity.
Qed.

(** X11: the step sizes: for at least two time points [dt] has one
    entry per time point, [dt_0 = t_1 - t_0] (the first difference,
    repeated) and [dt_i = t_i - t_(i-1)] from [i = 1] on; for a single
    time point, or none, [dt] is empty and so shorter than [tpts]. *)
Theorem time_steps_spec (tpts : @vec T) (d : T) :
  ((length tpts <= 1)%nat -> time_steps tpts = []) /\
  ((2 <= length tpts)%nat ->
   length (time_steps tpts) = length tpts /\
   nth 0 (time_steps tpts) d = sub (nth 1 tpts d) (nth 0 tpts d) /\
   forall i, (1 <= i < length tpts)%nat ->
     nth i (time_steps tpts) d
     = sub (nth i tpts d) (nth (i - 1) tpts d)).
Proof.
  split.
  - destruct tpts as [|a [|b t]]; simpl; intros H; try reflexivity; lia.
  - intros H. destruct (differences_spec d tpts) as [Hl Hn].
    unfold time_steps.
    destruct (map (fun p => sub (fst p) (snd p))
                (combine (tl tpts) (removelast tpts)))
      as [|x dtp] eqn:Hd; [simpl in Hl; lia|].
    change (firstn 1 (x :: dtp) ++ x :: dtp) with (x :: x :: dtp).
    simpl in Hl. split; [simpl; lia|]. split.
    + rewrite <- (Hn 0%nat) by lia. reflexivity.
    + intros i Hi. destruct i as [|i]; [lia|].
      replace (S i - 1)%nat with i by lia.
      rewrite <- (Hn i) by lia. reflexivity.
Qed.
End BackwardEulerFacts.

Section FirstSample.
Import IEEE.
Variable d : dtype.
Variables XI P : Type.
Variable func : @vec spec_float -> @vec spec_float -> XI -> P
                -> result (@vec spec_float).

Lemma vec_sub_self_zero : forall (r : @vec spec_float),
  forallb fisfinite r = true ->
  vec_op (fsub d) r r
  = Ok (map (fun _ => S754_zero false) r).
Proof.
  unfold vec_op. induction r as [|a r IH]; intros Hf; [reflexivity|].
  simpl in Hf. apply andb_true_iff in Hf. destruct Hf as [Ha Hf].
  simpl. rewrite IH by exact Hf. simpl.
  now rewrite fsub_self by exact Ha.
Qed.

(** X12: at the first sample the two shifted values [linfunc] hands
    over are the same row, so [func2] of [DEER.compute] calls [func]
    there with a zero time derivative: for a row of finite entries and
    a finite nonzero step [dt], every entry of [dydt] is a zero with
    the sign of [dt]. *)
Theorem first_sample_has_zero_derivative {LP : Type}
    (y : @seq2 spec_float) (lin_params : LP) (s : bool) (m : positive)
    (e : Z) (xinp : XI) (params : P) :
  forallb fisfinite (nth 0 y []) = true ->
  compute_func2 (K:=float_scalar d) (fdiv d) func
    (map (fun u => nth 0 u []) (linfunc y lin_params))
    (S754_finite s m e, xinp) params
  = func (map (fun _ => S754_zero s) (nth 0 y [])) (nth 0 y []) xinp
      params.
Proof.
  intros Hf. unfold linfunc. cbn [map].
  assert (H0 : nth 0 (firstn 1 y ++ removelast y) [] = nth 0 y [])
    by (destruct y; reflexivity).
  assert (Hrow : forall r r' : @vec spec_float,
            r' = r -> forallb fisfinite r = true ->
            compute_func2 (K:=float_scalar d) (fdiv d) func [r; r']
              (S754_finite s m e, xinp) params
            = func (map (fun _ => S754_zero s) r) r xinp params).
  { intros r r' -> Hr. unfold compute_func2.
    simpl sub. rewrite vec_sub_self_zero by exact Hr.
    simpl bind. rewrite map_map. reflexivity. }
  apply Hrow; [exact H0 | exact Hf].
Qed.
End FirstSample.

(** * Runs of the concrete callers *)

Section RunFacts.
Import Callers Runs.

(** ** The differentiation rule *)


(** ** The loop *)

Lemma budget_respected_witness :
  sq_trace 1 tt tt tt tt [[i64 2]] false = Ok tt /\
  exists c,
    iterate (sq_iter_func tt tt tt tt false) (Z.to_nat 3)
      (init_carry (K:=K64) 1 [[i64 2]]) = Ok c /\
    c_iter c = 3 /\
    sq_loop 1 tt tt tt tt [[i64 2]] 3 false 4%nat
      = Some (after_check (sq_trace 1 tt tt tt tt [[i64 2]] false)
                (Ok c)) /\
    sq_helper 1 tt tt tt tt [[i64 2]] 3 false 4%nat
      = Some (after_check (sq_trace 1 tt tt tt tt [[i64 2]] false)
                (Ok (c_yt c, c_gts c))) /\
    sq_iteration 1 tt tt tt tt [[i64 2]] 3 false 4%nat
      = Some (after_check (sq_trace 1 tt tt tt tt [[i64 2]] false)
                (Ok (c_yt c))).
Proof.
  split; [vm_compute; reflexivity|].
  assert (Hr : - 2 ^ 31 <= 3 <= int32_max) by (unfold int32_max; lia).
  apply (proj2 (@budget_respected spec_float K64 unit unit unit unit
                  (rhs_inv_lin (T:=spec_float)) (pw_func2 sq)
                  (pw_jacfunc sq') (id_shifter (T:=spec_float))
                  1 tt tt tt tt [[i64 2]] 3 false Hr)).
  - lia.
  - intros k Hk.
    destruct k as [|[|[|[|k]]]]; [| | | | simpl in Hk; lia].
    1-3: eexists; split;
      [vm_compute; reflexivity | intros _; vm_compute; reflexivity].
    eexists; split; [vm_compute; reflexivity | intros H; simpl in H; lia].
  - simpl; lia.
Defined.

(** C2 as stated fails: for [y = y * y] with an [inv_lin] that returns
    the right-hand side, started at [2], no execution of the body
    reports an error at or below the tolerance, and still the loop
    stops after [10] of [100] iterations: the estimates overflow, the
    tenth error is a not-a-number and [err > tol] is false for it. *)
Lemma nan_error_stops_before_budget :
  sq_loop 1 tt tt tt tt [[i64 2]] 100 false 101%nat
    = Some (Ok (S754_nan, [[S754_nan]],
                [[[[S754_finite false 4503599627370496 461]]]], 10)) /\
  forallb
    (fun k =>
       match iterate (sq_iter_func tt tt tt tt false) k
               (init_carry (K:=K64) 1 [[i64 2]]) with
       | Ok c => negb (fle_lit float64 (c_err c) (tol (K:=K64)))
       | Raise _ => false
       end)
    (seq 1 10) = true.
Proof. split; vm_compute; reflexivity. Qed.

Lemma tolerance_selection_witness :
  tol (K:=K32) = 1 # 10000 /\
  tol (K:=K64) = 1 # 10000000 /\
  3 <= 3 /\
  step32_trace 1 tt tt tt tt [[IEEE.fof_int float32 0]] false = Ok tt /\
  step32_loop 1 tt tt tt tt [[IEEE.fof_int float32 0]] 100 false 101%nat
    = Some (after_check
              (step32_trace 1 tt tt tt tt [[IEEE.fof_int float32 0]]
                 false)
              (Ok (two_m20_32, [[two_m20_32]],
                   [[[[S754_finite true 8388608 (-23)]]]], 1))) /\
  step32_iteration 1 tt tt tt tt [[IEEE.fof_int float32 0]] 100 false
    101%nat
    = Some (after_check
              (step32_trace 1 tt tt tt tt [[IEEE.fof_int float32 0]]
                 false)
              (Ok [[two_m20_32]])) /\
  step64_loop 1 tt tt tt tt [[i64 0]] 100 false 101%nat
    = Some (Ok (i64 0, [[two_m20_64]],
                [[[[S754_finite true 4503599627370496 (-52)]]]], 2)).
Proof.
  destruct (@tolerance_selection spec_float K32 unit unit unit unit
              (const_inv_lin [[two_m20_32]]) (pw_func2 (fun u => u))
              (pw_jacfunc (fun _ => IEEE.fof_int float32 1))
              (id_shifter (T:=spec_float)) 1 tt tt tt tt
              [[IEEE.fof_int float32 0]] 100 false)
    as (H32 & _ & _ & Hstop32).
  destruct (@tolerance_selection spec_float K64 unit unit unit unit
              (rhs_inv_lin (T:=spec_float)) (pw_func2 sq)
              (pw_jacfunc sq') (id_shifter (T:=spec_float))
              1 tt tt tt tt [[i64 2]] 3 false)
    as (_ & H64 & Hbudget & _).
  split; [apply H32; reflexivity|].
  split; [apply H64; reflexivity|].
  split.
  { apply (Hbudget 4%nat
             (S754_finite false 8444249301319680 (-45),
              [[S754_finite true 4503599627370496 (-44)]],
              [[[[S754_finite false 4503599627370496 (-47)]]]], 3)).
    - unfold int32_max. lia.
    - vm_compute. reflexivity.
    - vm_compute. reflexivity. }
  split; [vm_compute; reflexivity|].
  assert (Hs : forall k, (k < 1)%nat ->
            exists ck,
              iterate (step32_iter_func tt tt tt tt false) k
                (init_carry (K:=K32) 1 [[IEEE.fof_int float32 0]])
                = Ok ck /\
              cond_func (K:=K32) 100 ck = true).
  { intros k Hk. assert (k = 0%nat) as -> by lia.
    eexists. split; [reflexivity | vm_compute; reflexivity]. }
  destruct (Hstop32 1%nat
              (two_m20_32, [[two_m20_32]],
               [[[[S754_finite true 8388608 (-23)]]]], 1) 101%nat)
    as [Hl Hi].
  - vm_compute. reflexivity.
  - exact Hs.
  - vm_compute. reflexivity.
  - lia.
  - split; [exact Hl|]. split; [exact Hi|]. vm_compute. reflexivity.
Defined.



Lemma max_iter_zero_returns_guess_witness :
  mismatch_iteration 1 tt tt [[i64 0]] tt [[i64 2]; [i64 3]] 0 false
    1%nat = Some (Raise ValueError) /\
  sq_iteration 2 tt tt tt tt [[i64 2]] 0 false 1%nat
    = Some (Raise TypeError) /\
  sq_loop 1 tt tt tt tt [[i64 2]] 0 false 1%nat
    = Some (Ok (init_carry (K:=K64) 1 [[i64 2]])) /\
  sq_helper 1 tt tt tt tt [[i64 2]] 0 false 1%nat
    = Some (Ok ([[i64 2]],
                repeat (zeros_square_like (K:=K64) [[i64 2]])
                  (Z.to_nat 1))) /\
  sq_iteration 1 tt tt tt tt [[i64 2]] 0 false 1%nat
    = Some (Ok [[i64 2]]) /\
  c_iter (init_carry (K:=K64) 1 [[i64 2]]) = 0.
Proof.
  split; [|split].
  - apply (proj1 (@max_iter_zero_returns_guess spec_float K64 unit unit
                    (list (@vec spec_float)) unit idae_inv_lin
                    (pw_func2 sq) (pw_jacfunc sq')
                    (id_shifter (T:=spec_float)) 1 tt tt [[i64 0]] tt
                    [[i64 2]; [i64 3]] false 0%nat)).
    vm_compute. reflexivity.
  - apply (proj1 (proj2
             (@max_iter_zero_returns_guess spec_float K64 unit unit unit
                unit (rhs_inv_lin (T:=spec_float)) (pw_func2 sq)
                (pw_jacfunc sq') (id_shifter (T:=spec_float)) 2 tt tt
                tt tt [[i64 2]] false 0%nat))
             (S754_finite false 6755399441055744 (-50),
              [[S754_finite true 4503599627370496 (-50)]],
              [[[[S754_finite true 4503599627370496 (-50)]]]], 1));
      vm_compute; reflexivity.
  - apply (proj2 (proj2
             (@max_iter_zero_returns_guess spec_float K64 unit unit unit
                unit (rhs_inv_lin (T:=spec_float)) (pw_func2 sq)
                (pw_jacfunc sq') (id_shifter (T:=spec_float)) 1 tt tt
                tt tt [[i64 2]] false 0%nat))
             (S754_finite false 6755399441055744 (-50),
              [[S754_finite true 4503599627370496 (-50)]],
              [[[[S754_finite true 4503599627370496 (-50)]]]], 1));
      vm_compute; reflexivity.
Defined.

(** C10 as stated fails: with [max_iter = 0], [p_num = 1], one shifted
    sequence and the backward-Euler operator (which unpacks two
    Jacobian blocks), [deer_iteration] does not return the guess: the
    evaluation of the body by [jax.lax.while_loop] raises
    [ValueError].  On a guess without entries it raises as well. *)
Lemma max_iter_zero_evaluates_body :
  mismatch_iteration 1 tt tt [[i64 0]] tt [[i64 2]; [i64 3]] 0 false
    1%nat = Some (Raise ValueError) /\
  sq_iteration 1 tt tt tt tt [[]; []] 0 false 1%nat
    = Some (Raise ValueError).
Proof. split; vm_compute; reflexivity. Qed.





(** ** One execution of the body *)

Lemma jacobian_bundle_and_rhs_witness :
  exists ytparams jacs f rhs y,
    rnn_shifter zeros2 [i64 0] = Ok ytparams /\
    rnn_jacfunc half ytparams ones2 (i64 1) = Ok jacs /\
    rnn_func2 (K:=K64) half ytparams ones2 (i64 1) = Ok f /\
    [[[[IEEE.fof_lit float64 (-1 # 2)]];
      [[IEEE.fof_lit float64 (-1 # 2)]]]]
      = map (seq3_neg (K:=K64)) jacs /\
    rnn_inv_lin (K:=K64)
      [[[[IEEE.fof_lit float64 (-1 # 2)]];
        [[IEEE.fof_lit float64 (-1 # 2)]]]] rhs [[i64 0]] = Ok y /\
    rnn_solution = clip_guard (K:=K64) false y /\
    (length jacs = length ytparams ->
     same_shape f rhs /\
     forall i a, (i < length f)%nat -> (a < length (nth i f []))%nat ->
       entry (K:=K64) rhs i a
       = taylor_rhs (K:=K64) f
           [[[[IEEE.fof_lit float64 (-1 # 2)]];
             [[IEEE.fof_lit float64 (-1 # 2)]]]] ytparams i a).
Proof.
  apply (jacobian_bundle_and_rhs (K:=K64) (rnn_inv_lin (K:=K64))
           (rnn_func2 (K:=K64) half) (rnn_jacfunc half)
           (rnn_shifter (T:=spec_float)) (i64 1) ones2 [[i64 0]] [i64 0]
           false (init_carry (K:=K64) 1 zeros2)
           (c':=(one_and_half, rnn_solution,
                 [[[[IEEE.fof_lit float64 (-1 # 2)]];
                   [[IEEE.fof_lit float64 (-1 # 2)]]]], 1))).
  vm_compute. reflexivity.
Defined.



(** ** The backward-Euler operator *)

Lemma solve_idae_inv_lin_solves_witness :
  exists y,
    solve_idae_inv_lin (K:=KZ) inv2 [idae_M0; idae_M1] idae_z [[1; 0]]
      = Ok y /\
    nth 0 y [] = [1; 0] /\
    length y = Nat.max 1 (length idae_M0) /\
    forall i, (1 <= i < length idae_M0)%nat ->
      nth i y []
      = vaddp (K:=KZ)
          (mvp (K:=KZ)
             (mat_neg (K:=KZ)
                (mmp (K:=KZ) (inv2 (nth i idae_M0 [])) (nth i idae_M1 [])))
             (nth (i - 1) y []))
          (mvp (K:=KZ) (inv2 (nth i idae_M0 [])) (nth i idae_z [])) /\
      vaddp (K:=KZ) (mvp (K:=KZ) (nth i idae_M0 []) (nth i y []))
        (mvp (K:=KZ) (nth i idae_M1 []) (nth (i - 1) y []))
      = nth i idae_z [].
Proof.
  apply (@solve_idae_inv_lin_solves Z KZ (exact_Z float64) inv2 2%nat
           idae_M0 idae_M1 idae_z [1; 0]).
  - reflexivity.
  - reflexivity.
  - repeat constructor.
  - repeat constructor.
  - repeat constructor.
  - reflexivity.
  - intros i Hi. simpl in Hi.
    assert (Hcases : i = 1%nat \/ i = 2%nat) by lia.
    destruct Hcases as [-> | ->];
      (split; [split; [reflexivity | simpl; repeat constructor]|]);
      intros w Hw;
      destruct w as [|w1 [|w2 [|w3 w]]]; try discriminate.
    + change (inv2 (nth 1 idae_M0 [])) with [[1; -1]; [0; 1]].
      cbn -[Z.mul Z.add]. repeat (f_equal; try lia).
    + change (inv2 (nth 2 idae_M0 [])) with [[1; -1]; [-1; 2]].
      cbn -[Z.mul Z.add]. repeat (f_equal; try lia).
Defined.
End RunFacts.

(** * Runs of the concrete callers, continued *)

Section MoreRunFacts.
Import Callers Runs.

Lemma loop_ends_within_budget_witness :
  exists r,
    sq_loop 1 tt tt tt tt [[i64 2]] 3 false 4%nat = Some r /\
    forall c, r = Ok c -> 0 <= c_iter c <= Z.max 0 3.
Proof.
  apply (@loop_ends_within_budget spec_float K64 unit unit unit unit
           (rhs_inv_lin (T:=spec_float)) (pw_func2 sq) (pw_jacfunc sq')
           (id_shifter (T:=spec_float)) 1 tt tt tt tt [[i64 2]] 3 false
           4%nat).
  - unfold int32_max. lia.
  - simpl. lia.
Defined.

Lemma bundle_is_of_previous_estimate_witness :
  sq_helper 1 tt tt tt tt [[i64 2]] 3 false 4%nat
    = Some (Ok ([[i64 (- 256)]], [[[[i64 32]]]])) /\
  (([[i64 (- 256)]] = [[i64 2]] /\
    [[[[i64 32]]]]
    = repeat (zeros_square_like (K:=K64) [[i64 2]]) (Z.to_nat 1)) \/
   (exists n cprev ytparams jacs rhs y',
      iterate (sq_iter_func tt tt tt tt false) n
        (init_carry (K:=K64) 1 [[i64 2]]) = Ok cprev /\
      cond_func (K:=K64) 3 cprev = true /\
      id_shifter (c_yt cprev) tt = Ok ytparams /\
      pw_jacfunc sq' ytparams tt tt = Ok jacs /\
      [[[[i64 32]]]] = map (seq3_neg (K:=K64)) jacs /\
      rhs_inv_lin [[[[i64 32]]]] rhs tt = Ok y' /\
      [[i64 (- 256)]] = clip_guard (K:=K64) false y')).
Proof.
  split; [vm_compute; reflexivity|].
  apply (@bundle_is_of_previous_estimate spec_float K64 unit unit unit
           unit (rhs_inv_lin (T:=spec_float)) (pw_func2 sq)
           (pw_jacfunc sq') (id_shifter (T:=spec_float)) 1 tt tt tt tt
           [[i64 2]] 3 false 4%nat [[i64 (- 256)]] [[[[i64 32]]]]).
  vm_compute. reflexivity.
Defined.

Lemma empty_guess_raises_witness :
  exists e,
    sq_iter_func tt tt tt tt false (init_carry (K:=K64) 1 [[]; []])
      = Raise e /\
    sq_iteration 1 tt tt tt tt [[]; []] 3 false 4%nat = Some (Raise e).
Proof.
  apply (@empty_guess_raises spec_float K64 unit unit unit unit
           (rhs_inv_lin (T:=spec_float)) (pw_func2 sq) (pw_jacfunc sq')
           (id_shifter (T:=spec_float)) 1 tt tt tt tt [[]; []] 3 false
           3%nat).
  - reflexivity.
  - lia.
  - vm_compute. reflexivity.
Defined.

Lemma nan_estimate_ends_loop_witness :
  wild_trace 1 tt tt tt tt zeros4 false = Ok tt /\
  c_err (T:=spec_float)
    (S754_nan, wild,
     [[[[S754_zero true]]; [[S754_zero true]]; [[S754_zero true]];
       [[S754_zero true]]]], 1) = S754_nan /\
  wild_loop 1 tt tt tt tt zeros4 100 false 101%nat
    = Some (after_check (wild_trace 1 tt tt tt tt zeros4 false)
              (Ok (S754_nan, wild,
                   [[[[S754_zero true]]; [[S754_zero true]];
                     [[S754_zero true]]; [[S754_zero true]]]], 1))) /\
  wild_iteration 1 tt tt tt tt zeros4 100 false 101%nat
    = Some (after_check (wild_trace 1 tt tt tt tt zeros4 false)
              (Ok wild)).
Proof.
  split; [vm_compute; reflexivity|].
  apply (@nan_estimate_ends_loop float64 unit unit unit unit
           (const_inv_lin wild) (pw_func2 sq) (pw_jacfunc sq')
           (id_shifter (T:=spec_float)) 1 tt tt tt tt zeros4 100
           101%nat 0%nat (init_carry (K:=K64) 1 zeros4)
           (S754_nan, wild,
            [[[[S754_zero true]]; [[S754_zero true]]; [[S754_zero true]];
              [[S754_zero true]]]], 1)).
  - reflexivity.
  - intros k Hk. assert (k = 0%nat) as -> by lia.
    eexists. split; [reflexivity | vm_compute; reflexivity].
  - vm_compute. reflexivity.
  - simpl. left. reflexivity.
  - lia.
Defined.

Lemma finite_fixed_point_is_returned_witness :
  kink_trace 1 tt tt tt tt [[i64 1]] false = Ok tt /\
  c_err (T:=spec_float) (i64 0, [[i64 1]], [[[[S754_zero true]]]], 1)
    = S754_zero false /\
  c_iter (T:=spec_float) (i64 0, [[i64 1]], [[[[S754_zero true]]]], 1)
    = 1 /\
  kink_loop 1 tt tt tt tt [[i64 1]] 100 false 101%nat
    = Some (after_check (kink_trace 1 tt tt tt tt [[i64 1]] false)
              (Ok (i64 0, [[i64 1]], [[[[S754_zero true]]]], 1))) /\
  kink_iteration 1 tt tt tt tt [[i64 1]] 100 false 101%nat
    = Some (after_check (kink_trace 1 tt tt tt tt [[i64 1]] false)
              (Ok [[i64 1]])).
Proof.
  split; [vm_compute; reflexivity|].
  apply (@finite_fixed_point_is_returned float64 unit unit unit unit
           (diag_inv_lin float64) (pw_func2 (kink float64))
           (pw_jacfunc (kink' float64)) (id_shifter (T:=spec_float))
           1 tt tt tt tt [[i64 1]] 100 false 101%nat
           (i64 0, [[i64 1]], [[[[S754_zero true]]]], 1)).
  - unfold int32_max. lia.
  - lia.
  - reflexivity.
  - vm_compute. reflexivity.
  - reflexivity.
Defined.

Lemma solve_idae_inv_lin_unpacks_witness :
  solve_idae_inv_lin (K:=KZ) inv2 [idae_M0] idae_z [[1; 0]]
    = Raise ValueError /\
  solve_idae_inv_lin (K:=KZ) inv2 [idae_M0; idae_M1] idae_z
    [[1; 0]; [1; 0]] = Raise ValueError /\
  exists M0 M1 y0,
    [idae_M0; idae_M1] = [M0; M1] /\ [[1; 0]] = [y0] /\
    nth 0 [[1; 0]; [0; 0]; [-1; 5]] [] = y0.
Proof.
  split; [|split].
  - apply (proj1 (@solve_idae_inv_lin_unpacks Z KZ inv2 [idae_M0] idae_z
                    [[1; 0]])).
    simpl. lia.
  - apply (proj1 (proj2 (@solve_idae_inv_lin_unpacks Z KZ inv2
                           [idae_M0; idae_M1] idae_z
                           [[1; 0]; [1; 0]]))).
    simpl. lia.
  - apply (proj2 (proj2 (@solve_idae_inv_lin_unpacks Z KZ inv2
                           [idae_M0; idae_M1] idae_z [[1; 0]]))).
    vm_compute. reflexivity.
Defined.

Lemma solve_idae_inv_lin_superposes_witness :
  solve_idae_inv_lin (K:=KZ) inv2 [idae_M0; idae_M1]
    (saddp (K:=KZ) idae_z idae_z') [vaddp (K:=KZ) [1; 0] [-3; 4]]
  = Ok (saddp (K:=KZ) [[1; 0]; [0; 0]; [-1; 5]]
          [[-3; 4]; [4; 1]; [5; -6]]).
Proof.
  apply (@solve_idae_inv_lin_superposes Z KZ (exact_Z float64) inv2
           [idae_M0; idae_M1] idae_z idae_z' [1; 0] [-3; 4]
           [[1; 0]; [0; 0]; [-1; 5]] [[-3; 4]; [4; 1]; [5; -6]]).
  - vm_compute. reflexivity.
  - vm_compute. reflexivity.
Defined.

Lemma linfunc_shifts_by_one_witness :
  exists ym1,
    linfunc [[i64 1]; [i64 2]; [i64 3]] tt
      = [[[i64 1]; [i64 2]; [i64 3]]; ym1] /\
    length ym1 = 3%nat /\
    nth 0 ym1 [] = [i64 1] /\
    nth 1 ym1 [] = [i64 1] /\ nth 2 ym1 [] = [i64 2].
Proof.
  destruct (@linfunc_shifts_by_one spec_float unit
              [[i64 1]; [i64 2]; [i64 3]] tt)
    as (ym1 & H & Hl & H0 & Hi).
  exists ym1. split; [exact H|]. split; [exact Hl|].
  split; [exact H0|]. split.
  - apply (Hi 0%nat). simpl. lia.
  - apply (Hi 1%nat). simpl. lia.
Defined.

Lemma time_steps_spec_witness :
  time_steps (K:=KZ) [5] = [] /\
  length (time_steps (K:=KZ) [0; 1; 3; 6]) = 4%nat /\
  nth 0 (time_steps (K:=KZ) [0; 1; 3; 6]) 0 = 1 - 0 /\
  nth 3 (time_steps (K:=KZ) [0; 1; 3; 6]) 0 = 6 - 3.
Proof.
  split.
  - apply (proj1 (@time_steps_spec Z KZ [5] 0)). simpl. lia.
  - destruct (proj2 (@time_steps_spec Z KZ [0; 1; 3; 6] 0))
      as (Hl & H0 & Hi); [simpl; lia|].
    split; [exact Hl|]. split; [exact H0|].
    apply (Hi 3%nat). simpl. lia.
Defined.

Lemma first_sample_has_zero_derivative_witness :
  compute_func2 (K:=K64) (IEEE.fdiv float64) decay
    (map (fun u => nth 0 u [])
       (linfunc [[i64 1; i64 2]; [i64 3; i64 4]] tt))
    (two, tt) tt
  = decay [S754_zero false; S754_zero false] [i64 1; i64 2] tt tt.
Proof.
  apply (@first_sample_has_zero_derivative float64 unit unit decay unit
           [[i64 1; i64 2]; [i64 3; i64 4]] tt false 4503599627370496
           (-51) tt tt).
  reflexivity.
Defined.

Lemma guarded_result_in_range_witness :
  wild_iteration 1 tt tt tt tt
    [[S754_nan]; [i64 0]; [i64 0]; [S754_infinity false]] 100 true
    101%nat
    = Some (Ok [[i64 0]; [i64 (10 ^ 8)]; [i64 (- 10 ^ 8)]; [i64 5]]) /\
  Forall (Forall (IEEE.in_clip_range float64))
    [[i64 0]; [i64 (10 ^ 8)]; [i64 (- 10 ^ 8)]; [i64 5]].
Proof.
  split; [vm_compute; reflexivity|].
  apply (@guarded_result_in_range float64 unit unit unit unit
           (const_inv_lin wild) (pw_func2 sq) (pw_jacfunc sq')
           (id_shifter (T:=spec_float)) 1 tt tt tt tt
           [[S754_nan]; [i64 0]; [i64 0]; [S754_infinity false]]
           [[i64 0]; [i64 (10 ^ 8)]; [i64 (- 10 ^ 8)]; [i64 5]]
           100 101%nat).
  - unfold int32_max. lia.
  - vm_compute. reflexivity.
Defined.

Lemma rule_returns_loop_output_witness :
  rnn_iteration 1 (i64 1) ones2 [[i64 0]] [i64 0] zeros2 100 false
    101%nat = Some (Ok rnn_solution) /\
  forall (gsp' : @vec spec_float) (gy' : @seq2 spec_float),
    rnn_jvp 1 100 false (i64 1, ones2, [[i64 0]], [i64 0], zeros2)
      (i64 1, zeros2, [[i64 0]], gsp', gy') 101%nat
    = Some (Ok (rnn_solution, rnn_solution)).
Proof.
  destruct (@rule_returns_loop_output spec_float K64 _ _ _ _
              (rnn_inv_lin (K:=K64)) (rnn_func2 (K:=K64) half)
              (rnn_jacfunc half) (rnn_shifter (T:=spec_float))
              (rnn_func2_jvp (K:=K64) half) (rnn_inv_lin_jvp (K:=K64))
              1 100 false (i64 1) ones2 [[i64 0]] [i64 0] zeros2
              (i64 1) zeros2 [[i64 0]] [i64 0] zeros2 101%nat
              rnn_solution rnn_solution)
    as (Hy & _ & Hany).
  - vm_compute. reflexivity.
  - split; [exact Hy | exact Hany].
Defined.

Lemma linear_recurrence_gradient_witness :
  deer_iteration_jvp (K:=KZ) (rnn_inv_lin (K:=KZ)) (rnn_func2 (K:=KZ) 2)
    (rnn_jacfunc 2) (rnn_shifter (T:=Z)) (rnn_func2_jvp (K:=KZ) 2)
    (rnn_inv_lin_jvp (K:=KZ)) 1 100 false
    (3, [[1]; [1]], [[0]], [0], [[0]; [0]])
    (1, [[0]; [1]], [[1]], [5], [[7]; [7]]) 101%nat
  = Some (Ok (rnn2_solution (K:=KZ) 2 3 1 1 0,
              rnn2_tangent (K:=KZ) 2 3 1 1 1 0 1 1)) /\
  forall eps : Z,
    exists y_eps,
      deer_iteration (K:=KZ) (rnn_inv_lin (K:=KZ))
        (rnn_func2 (K:=KZ) 2)
        (rnn_jacfunc 2) (rnn_shifter (T:=Z)) 1
        (add (Scalar:=KZ) 3 (mul (Scalar:=KZ) eps 1))
        [[add (Scalar:=KZ) 1 (mul (Scalar:=KZ) eps 0)];
         [add (Scalar:=KZ) 1 (mul (Scalar:=KZ) eps 1)]]
        [[add (Scalar:=KZ) 0 (mul (Scalar:=KZ) eps 1)]] [0]
        [[0]; [0]] 100 false 101%nat
      = Some (Ok y_eps) /\
      forall i j, (i < 2)%nat -> (j < 1)%nat ->
        entry (K:=KZ) y_eps i j
        = expansion (K:=KZ) eps (rnn2_solution (K:=KZ) 2 3 1 1 0)
            (rnn2_tangent (K:=KZ) 2 3 1 1 1 0 1 1)
            (rnn2_second (K:=KZ) 2 1 0 1) i j.
Proof.
  apply (@linear_recurrence_gradient Z KZ (exact_Z float64) 2 100
           101%nat).
  - unfold int32_max. lia.
  - lia.
Defined.
End MoreRunFacts.
